(** * Jammming: catalog client and audio-preview playback coordinator

    A shallow embedding of

    - [formatDuration] and the response-normalising callback of [search]
      (src/components/spotifyAuth.js and src/util/Spotify.js), and
    - the audio-preview design (the [AudioProvider] coordinator with
      [register] / [unregister], and the [Track] row with [togglePlay],
      [handleAudioEnd], [handleAudioError] and the unmount cleanup).

    JavaScript numbers that hold integers below [2^53] are modelled as
    [Z], strings as [string], [null]/[undefined] as [None].  Audio elements live in a heap
    indexed by references, so that the coordinator and the rows alias the
    same elements.  Every call that matters for ordering is appended to a
    ghost log. *)

From stdpp Require Import base decidable option list gmap strings pretty.

Open Scope Z_scope.

(** ** Track records *)

(** The object literal built by [search]: [{id, name, artist, album, uri,
    duration}], read by the row as [{ name, artist, album, duration,
    previewUrl } = track].  A property that the literal does not define
    reads as [undefined], here [None]. *)
Module Track.
Record t := mk {
  id : string;
  name : string;
  artist : string;
  album : string;
  uri : string;
  duration : string;
  previewUrl : option string
}.
End Track.

(** JavaScript truthiness of a string-or-undefined value: [undefined],
    [null] and the empty string are falsy. *)
Definition truthy (v : option string) : bool :=
  match v with
  | Some s => negb (bool_decide (s = ""))
  | None => false
  end.

(** ** The catalog client *)

(** The part of the search endpoint's JSON that [search] reads.  The
    callback dereferences [track], [track.artists], [track.artists[0]]
    and [track.album]; each of them may be [null] or absent in the
    parsed JSON, here [None].  The scalar properties are only copied. *)
Module Api.
Record artist := mkArtist { artist_name : string }.
Record album := mkAlbum { album_name : string }.
Record track := mkTrack {
  id : string;
  name : string;
  artists : option (list (option artist));
  track_album : option album;
  uri : string;
  duration_ms : Z;
  preview_url : option string
}.
Record paging := mkPaging { items : option (list (option track)) }.
Record response := mkResponse { tracks : option paging }.
End Api.

(** A settled promise. *)
Inductive promise (A : Type) :=
  | Fulfilled (v : A)
  | Rejected.
Arguments Fulfilled {A} v.
Arguments Rejected {A}.

(** [Array.prototype.map] with a callback that may throw: the first
    exception aborts the whole map. *)
Fixpoint map_throwing {A B : Type} (f : A → option B) (l : list A) : option (list B) :=
  match l with
  | [] => Some []
  | x :: l' =>
      match f x with
      | None => None
      | Some y =>
          match map_throwing f l' with
          | None => None
          | Some ys => Some (y :: ys)
          end
      end
  end.

(** [formatDuration(ms)]:
<<
    const minutes = Math.floor(ms / 60000);
    const seconds = Math.floor((ms % 60000) / 1000);
    return `${minutes}:${seconds < 10 ? '0' : ''}${seconds}`;
>>
    On integers [Math.floor(a / b)] is the floor quotient [Z.div] and [%]
    is the truncating remainder [Z.rem]; a number is printed in decimal,
    with a minus sign when negative.  This is the function on the
    integers a JavaScript number holds exactly, those below [2^53] in
    absolute value; [formatDuration_double] below follows the rounding
    of the division beyond that range. *)
Definition formatDuration (ms : Z) : string :=
  let minutes := ms `div` 60000 in
  let seconds := (ms `rem` 60000) `div` 1000 in
  pretty minutes +:+ ":" +:+ (if bool_decide (seconds < 10) then "0" else "") +:+ pretty seconds.

(** The duration string as the specification words it:
    [m + ":" + ss] with [m = floor(ms / 60000)] and
    [ss = floor((ms mod 60000) / 1000)], zero-padded below ten. *)
Definition spec_minutes (ms : Z) : Z := ms `div` 60000.
Definition spec_seconds (ms : Z) : Z := (ms `mod` 60000) `div` 1000.
Definition two_digits (n : Z) : string :=
  if bool_decide (n < 10) then "0" +:+ pretty n else pretty n.
Definition spec_formatDuration (ms : Z) : string :=
  pretty (spec_minutes ms) +:+ ":" +:+ two_digits (spec_seconds ms).

(** *** The same function on double-precision numbers

    A JavaScript number is an IEEE 754 double: 53 significant bits.  An
    integer below [2^53] is held exactly, and so is a larger one whose
    low bits are zero.  [%] is exact on doubles, but [/] yields the
    double nearest to the quotient, ties to the even significand. *)

(** [n / d] rounded to the nearest integer, ties to the even one. *)
Definition round_half_even (n d : Z) : Z :=
  let q := n `div` d in
  let r := n `mod` d in
  if bool_decide (2 * r < d) then q
  else if bool_decide (d < 2 * r) then q + 1
  else if Z.even q then q else q + 1.

(** The binary exponent of the quotient of two positive integers: the
    [E] with [2^E ≤ a / b < 2^(E+1)]. *)
Definition binade (a b : Z) : Z :=
  let la := Z.log2 a in
  let lb := Z.log2 b in
  if bool_decide (a * 2 ^ lb < b * 2 ^ la) then la - lb - 1 else la - lb.

(** [Math.floor(a / b)] for integers [0 ≤ a] and [0 < b] that are held
    exactly.  The division yields the double nearest to the quotient,
    which is a multiple of [2^e] for [e = binade a b - 52]; [Math.floor]
    then rounds that double down, exactly.  (The quotients of
    [formatDuration] are far from the subnormal and the overflow
    range.) *)
Definition floor_of_quotient (a b : Z) : Z :=
  if bool_decide (a = 0) then 0
  else
    let e := binade a b - 52 in
    if bool_decide (0 ≤ e)
    then round_half_even a (b * 2 ^ e) * 2 ^ e
    else round_half_even (a * 2 ^ (- e)) b `div` 2 ^ (- e).

(** The integers that a double holds. *)
Definition is_double (z : Z) : bool :=
  bool_decide (Z.abs z < 2 ^ 53)
  || (bool_decide (Z.abs z `mod` 2 ^ (Z.log2 (Z.abs z) - 52) = 0)
      && bool_decide (Z.abs z < 2 ^ 1024)).

(** Number-to-string conversion of an integer below [2^53], which
    prints as its decimal digits.  Larger numbers print as the shortest
    digits that read back as the same double, or with an exponent; they
    are left out ([None]). *)
Definition number_to_string (z : Z) : option string :=
  if bool_decide (Z.abs z < 2 ^ 53) then Some (pretty z) else None.

(** [formatDuration] on a non-negative integer double; [None] for
    another argument or when a number to print is not below [2^53]. *)
Definition formatDuration_double (ms : Z) : option string :=
  if bool_decide (0 ≤ ms) && is_double ms then
    let minutes := floor_of_quotient ms 60000 in
    let seconds := floor_of_quotient (ms `rem` 60000) 1000 in
    match number_to_string minutes, number_to_string seconds with
    | Some m, Some s =>
        Some (m +:+ ":" +:+ (if bool_decide (seconds < 10) then "0" else "") +:+ s)
    | _, _ => None
    end
  else None.

(** The callback that both [search] implementations map over
    [tracks.items], applied to an item that is an object.  [None] is a
    [TypeError]: [track.artists[0].name] throws when [artists] is
    missing, when the array is empty and when its first entry is
    [null]; [track.album.name] throws when [album] is missing. *)
Definition normalize_track (track : Api.track) : option Track.t :=
  match Api.artists track with
  | Some (Some first :: _) =>
      match Api.track_album track with
      | Some album =>
          Some {| Track.id := Api.id track;
                  Track.name := Api.name track;
                  Track.artist := Api.artist_name first;
                  Track.album := Api.album_name album;
                  Track.uri := Api.uri track;
                  Track.duration := formatDuration (Api.duration_ms track);
                  Track.previewUrl := None |}
      | None => None
      end
  | _ => None
  end.

(** The callback applied to an entry of [items]: [track.id] already
    throws when the entry is [null]. *)
Definition normalize_item (item : option Api.track) : option Track.t :=
  match item with
  | Some track => normalize_track track
  | None => None
  end.

(** The entries on which the callback throws. *)
Definition item_throws (item : option Api.track) : Prop :=
  match item with
  | None => True
  | Some track =>
      match Api.artists track with
      | None | Some [] | Some (None :: _) => True
      | Some (Some _ :: _) => Api.track_album track = None
      end
  end.

(** src/components/spotifyAuth.js: the [.then] callback of [search],
    applied to what [fetchFromSpotify] resolved to ([null] for a 204). *)
Module SpotifyAuth.
Definition search (data : option Api.response) : promise (list Track.t) :=
    match data with
    | None => Fulfilled []
    | Some d =>
        match Api.tracks d with
        | None => Fulfilled []
        | Some p =>
            match Api.items p with
            | None => Fulfilled []
            | Some its =>
                match map_throwing normalize_item its with
                | Some ts => Fulfilled ts
                | None => Rejected
                end
            end
        end
    end.
End SpotifyAuth.

(** src/util/Spotify.js: the second [.then] callback of [search], followed
    by its [.catch], which logs and resolves to the empty array. *)
Module Spotify.
Definition search (jsonResponse : Api.response) : promise (list Track.t) :=
    match Api.tracks jsonResponse with
    | None => Fulfilled []
    | Some p =>
        match Api.items p with
        | None => Fulfilled []
        | Some its =>
            match map_throwing normalize_item its with
            | Some ts => Fulfilled ts
            | None => Fulfilled []
            end
        end
    end.
End Spotify.

(** The mapping that the preview design document asks [search] to use:
    the same literal with the line [previewUrl: track.preview_url]. *)
Module PreviewDesign.
Definition normalize_track (track : Api.track) : option Track.t :=
    match Api.artists track with
    | Some (Some first :: _) =>
        match Api.track_album track with
        | Some album =>
            Some {| Track.id := Api.id track;
                    Track.name := Api.name track;
                    Track.artist := Api.artist_name first;
                    Track.album := Api.album_name album;
                    Track.uri := Api.uri track;
                    Track.duration := formatDuration (Api.duration_ms track);
                    Track.previewUrl := Api.preview_url track |}
        | None => None
        end
    | _ => None
    end.
End PreviewDesign.

(** ** The audio heap, the coordinator slot and the rows *)

(** What the design observes of an [HTMLAudioElement]: its [src] and
    whether it is paused. *)
Record AudioElement := mkAudio {
  src : option string;
  paused : bool
}.

(** The object [{ element: audioElement, id }] stored in
    [currentlyPlaying.current]; [element] is a reference into the heap. *)
Module Registration.
Record t := mk {
  element : nat;
  id : string
}.
End Registration.

(** One rendered [Track] component: its [track] prop, its [isPlaying]
    state and [audioRef.current]. *)
Record Row := mkRow {
  track : Track.t;
  isPlaying : bool;
  audioRef : option nat
}.

(** Calls recorded in program order. *)
Inductive Call :=
  | CallPlay (element : nat)
  | CallPause (element : nat)
  | CallRegister (element : nat) (id : string)
  | CallUnregister (id : string)
  | CallSetIsPlaying (row : nat) (value : bool).

Record World := mkWorld {
  heap : gmap nat AudioElement;
  currentlyPlaying : option Registration.t;
  rows : gmap nat Row;
  calls : list Call
}.

Definition initial : World :=
  {| heap := ∅; currentlyPlaying := None; rows := ∅; calls := [] |}.

Definition set_paused (b : bool) (a : AudioElement) : AudioElement :=
  {| src := src a; paused := b |}.

Definition set_isPlaying (b : bool) (r : Row) : Row :=
  {| track := track r; isPlaying := b; audioRef := audioRef r |}.

Definition log (c : Call) (w : World) : World :=
  {| heap := heap w; currentlyPlaying := currentlyPlaying w;
     rows := rows w; calls := calls w ++ [c] |}.

Definition update_heap (f : gmap nat AudioElement → gmap nat AudioElement) (w : World) : World :=
  {| heap := f (heap w); currentlyPlaying := currentlyPlaying w;
     rows := rows w; calls := calls w |}.

Definition update_rows (f : gmap nat Row → gmap nat Row) (w : World) : World :=
  {| heap := heap w; currentlyPlaying := currentlyPlaying w;
     rows := f (rows w); calls := calls w |}.

Definition set_currentlyPlaying (c : option Registration.t) (w : World) : World :=
  {| heap := heap w; currentlyPlaying := c; rows := rows w; calls := calls w |}.

(** [element.pause()] and [element.play()]. *)
Definition pause (e : nat) (w : World) : World :=
  update_heap (alter (set_paused true) e) (log (CallPause e) w).

Definition play (e : nat) (w : World) : World :=
  update_heap (alter (set_paused false) e) (log (CallPlay e) w).

(** [setIsPlaying(b)] of the row mounted at [r]; a state update of a row
    that is gone does nothing. *)
Definition setIsPlaying (r : nat) (b : bool) (w : World) : World :=
  update_rows (alter (set_isPlaying b) r) (log (CallSetIsPlaying r b) w).

(** An element is in the playing state when it exists and is not paused. *)
Definition playing (w : World) (e : nat) : bool :=
  match heap w !! e with
  | Some a => negb (paused a)
  | None => false
  end.

(** *** AudioProvider *)

(** [[
    const register = (audioElement, id) => {
      if (currentlyPlaying.current && currentlyPlaying.current.id !== id) {
        currentlyPlaying.current.element.pause();
      }
      currentlyPlaying.current = { element: audioElement, id };
    };
    ]] *)
Definition register (audioElement : nat) (id : string) (w : World) : World :=
  let w := log (CallRegister audioElement id) w in
  let w :=
    match currentlyPlaying w with
    | Some cur =>
        if bool_decide (Registration.id cur ≠ id)
        then pause (Registration.element cur) w
        else w
    | None => w
    end in
  set_currentlyPlaying
    (Some {| Registration.element := audioElement; Registration.id := id |}) w.

(** [[
    const unregister = (id) => {
      if (currentlyPlaying.current && currentlyPlaying.current.id === id) {
        currentlyPlaying.current = null;
      }
    };
    ]] *)
Definition unregister (id : string) (w : World) : World :=
  let w := log (CallUnregister id) w in
  match currentlyPlaying w with
  | Some cur =>
      if bool_decide (Registration.id cur = id)
      then set_currentlyPlaying None w
      else w
  | None => w
  end.

(** A run of [register] calls, in order. *)
Definition register_all (l : list (nat * string)) (w : World) : World :=
  foldl (λ w c, register c.1 c.2 w) w l.

(** *** Track *)

(** [{previewUrl && (<button ... onClick={togglePlay}>)}]: the preview
    button is rendered exactly when [previewUrl] is truthy. *)
Definition rendersPreviewButton (row : Row) : bool :=
  truthy (Track.previewUrl (track row)).

(** [togglePlay] of the row mounted at [r], with the values its closure
    holds.  [None] is the [TypeError] of calling a method on a null
    [audioRef.current]; no effect precedes it.  The leading
    [e.stopPropagation()] only concerns the click event and is left out.
[[
    if (!previewUrl) return;
    if (isPlaying) {
      audioRef.current.pause();
      unregister(track.id);
    } else {
      audioRef.current.play();
      register(audioRef.current, track.id);
    }
    setIsPlaying(!isPlaying);
]] *)
Definition togglePlay (r : nat) (row : Row) (w : World) : option World :=
  if negb (truthy (Track.previewUrl (track row))) then Some w
  else
    match audioRef row with
    | None => None
    | Some e =>
        let w :=
          if isPlaying row
          then unregister (Track.id (track row)) (pause e w)
          else register e (Track.id (track row)) (play e w) in
        Some (setIsPlaying r (negb (isPlaying row)) w)
    end.

(** [handleAudioEnd] and [handleAudioError]: both only reset the flag. *)
Definition handleAudioEnd (r : nat) (w : World) : World :=
  setIsPlaying r false w.

Definition handleAudioError (r : nat) (w : World) : World :=
  setIsPlaying r false w.

(** The cleanup returned by the row's effect, with [audioRef] as it is
    when the cleanup runs:
[[
    if (audioRef.current) { audioRef.current.pause(); }
    unregister(track.id);
]] *)
Definition cleanup (row : Row) (w : World) : World :=
  let w :=
    match audioRef row with
    | Some e => pause e w
    | None => w
    end in
  unregister (Track.id (track row)) w.

(** *** Events *)

(** What can happen to the application between two renders.  [Mount]
    renders a new row for a track, with a new paused [<audio>] element
    whose [src] is the preview URL and to which [audioRef] is attached.
    [Click] is a click on the row's preview button.  [Ended] and [Error]
    are the element's media events; [DepsChanged] is the effect being
    re-run because its dependency list [[track.id, unregister]] changed,
    which leaves the ref attached.  [Unmount] destroys the row.  React
    detaches the ref of an unmounting component ([audioRef.current]
    becomes [null]) and runs its effect cleanups; which of the two comes
    first depends on the React version (up to version 16 the cleanup
    runs first, from version 17 on the ref is detached first), and the
    repository does not fix the version, so the event says whether the
    ref is still [attached] when the cleanup runs.

    The events are delivered one at a time and in any order: how the
    application groups them (a render of the provider creates a new
    [unregister] and so re-runs the effect of every row) is not fixed
    here, so that the worlds reached by the events include those the
    application reaches. *)
Inductive Event :=
  | Mount (r e : nat) (t : Track.t)
  | Click (r : nat)
  | Ended (r : nat)
  | Error (r : nat)
  | DepsChanged (r : nat)
  | Unmount (r : nat) (attached : bool).

Definition mount (r e : nat) (t : Track.t) (w : World) : World :=
  update_rows (insert r {| track := t; isPlaying := false; audioRef := Some e |})
    (update_heap (insert e {| src := Track.previewUrl t; paused := true |}) w).

(** The browser's part of reaching the end of the media: the element
    becomes paused before its [ended] listeners run. *)
Definition end_playback (e : nat) (w : World) : World :=
  update_heap (alter (set_paused true) e) w.

(** The row as the unmount cleanup reads it once React has detached
    the ref. *)
Definition detach (row : Row) : Row :=
  {| track := track row; isPlaying := isPlaying row; audioRef := None |}.

(** The browser's part of an unmount: the [<audio>] element leaves the
    document, and a media element that was removed from its document is
    paused by the user agent (HTML Standard, media elements).  No call
    of the program is involved, so nothing is logged. *)
Definition remove_from_document (row : Row) (w : World) : World :=
  match audioRef row with
  | Some e => end_playback e w
  | None => w
  end.

(** The row mounted at [r] is destroyed: the cleanup runs with the ref
    as React left it, the element leaves the document and the row is
    gone. *)
Definition unmount (r : nat) (attached : bool) (row : Row) (w : World) : World :=
  let seen := if attached then row else detach row in
  update_rows (delete r) (remove_from_document row (cleanup seen w)).

(** One event.  [None] when the event cannot be delivered: the row or
    the button does not exist, the names of a [Mount] are taken, an
    element that is not playing cannot end, or the handler throws. *)
Definition dispatch (ev : Event) (w : World) : option World :=
  match ev with
  | Mount r e t =>
      match rows w !! r, heap w !! e with
      | None, None => Some (mount r e t w)
      | _, _ => None
      end
  | Click r =>
      match rows w !! r with
      | Some row => if rendersPreviewButton row then togglePlay r row w else None
      | None => None
      end
  | Ended r =>
      match rows w !! r with
      | Some row =>
          match audioRef row with
          | Some e => if playing w e then Some (handleAudioEnd r (end_playback e w)) else None
          | None => None
          end
      | None => None
      end
  | Error r =>
      match rows w !! r with
      | Some _ => Some (handleAudioError r w)
      | None => None
      end
  | DepsChanged r =>
      match rows w !! r with
      | Some row => Some (cleanup row w)
      | None => None
      end
  | Unmount r attached =>
      match rows w !! r with
      | Some row => Some (unmount r attached row w)
      | None => None
      end
  end.

Fixpoint run (evs : list Event) (w : World) : option World :=
  match evs with
  | [] => Some w
  | ev :: evs' =>
      match dispatch ev w with
      | Some w' => run evs' w'
      | None => None
      end
  end.

(** No two mounted rows show the same track identifier. *)
Definition distinct_ids (w : World) : Prop :=
  map_Forall (λ r1 row1,
    map_Forall (λ r2 row2,
      Track.id (track row1) = Track.id (track row2) → r1 = r2) (rows w)) (rows w).

Global Instance distinct_ids_dec (w : World) : Decision (distinct_ids w).
Proof. unfold distinct_ids. apply _. Defined.

(** Every world visited by a run has distinct identifiers. *)
Fixpoint distinct_along (evs : list Event) (w : World) : bool :=
  match evs with
  | [] => true
  | ev :: evs' =>
      match dispatch ev w with
      | Some w' => bool_decide (distinct_ids w') && distinct_along evs' w'
      | None => false
      end
  end.

(** The worlds the application reaches from its start, and those it
    reaches while the rows on screen keep distinct identifiers. *)
Inductive reachable : World → Prop :=
  | reachable_initial : reachable initial
  | reachable_step w ev w' :
      reachable w → dispatch ev w = Some w' → reachable w'.

Inductive reachable_distinct : World → Prop :=
  | reachable_distinct_initial : reachable_distinct initial
  | reachable_distinct_step w ev w' :
      reachable_distinct w → dispatch ev w = Some w' → distinct_ids w' →
      reachable_distinct w'.

(** At most one audio element is in the playing state. *)
Definition at_most_one_playing (w : World) : Prop :=
  ∀ e1 e2, playing w e1 = true → playing w e2 = true → e1 = e2.

(** The row's state as the specification names it. *)
Inductive RowState := Idle | Playing.

Definition row_state (w : World) (r : nat) : option RowState :=
  match rows w !! r with
  | Some row => Some (if isPlaying row then Playing else Idle)
  | None => None
  end.

(** The calls a step appended to the log. *)
Definition calls_since (w w' : World) : list Call :=
  drop (length (calls w)) (calls w').

(** Three tracks of a search result: two with a preview, one without. *)
Definition track1 : Track.t :=
  {| Track.id := "1"; Track.name := "One"; Track.artist := "A"; Track.album := "X";
     Track.uri := "spotify:track:1"; Track.duration := "3:05";
     Track.previewUrl := Some "a.mp3" |}.
Definition track2 : Track.t :=
  {| Track.id := "2"; Track.name := "Two"; Track.artist := "B"; Track.album := "Y";
     Track.uri := "spotify:track:2"; Track.duration := "2:10";
     Track.previewUrl := None |}.
Definition track3 : Track.t :=
  {| Track.id := "3"; Track.name := "Three"; Track.artist := "C"; Track.album := "Z";
     Track.uri := "spotify:track:3"; Track.duration := "4:00";
     Track.previewUrl := Some "c.mp3" |}.

Definition three_rows : list Event :=
  [Mount 0 0 track1; Mount 1 1 track2; Mount 2 2 track3]%nat.

(** A search response with one item that has a preview, and the record
    [search] builds for it. *)
Definition sample_item : Api.track :=
  {| Api.id := "1"; Api.name := "One";
     Api.artists := Some [ Some {| Api.artist_name := "A" |} ];
     Api.track_album := Some {| Api.album_name := "X" |};
     Api.uri := "spotify:track:1"; Api.duration_ms := 185000;
     Api.preview_url := Some "a.mp3" |}.

Definition sample_response : Api.response :=
  {| Api.tracks := Some {| Api.items := Some [Some sample_item] |} |}.

Definition sample_record : Track.t :=
  {| Track.id := "1"; Track.name := "One"; Track.artist := "A"; Track.album := "X";
     Track.uri := "spotify:track:1"; Track.duration := "3:05";
     Track.previewUrl := None |}.

(** The world after the three rows were mounted and the buttons of
    track 1 and then track 3 were clicked. *)
Definition played_1_then_3 : World :=
  setIsPlaying 2 true (register 2 "3" (play 2
    (setIsPlaying 0 true (register 0 "1" (play 0
      (mount 2 2 track3 (mount 1 1 track2 (mount 0 0 track1 initial)))))))).

(** ** Vocabulary of the properties *)

(** Call [a] is made before call [b]. *)
Definition called_before (a b : Call) (cs : list Call) : Prop :=
  ∃ i j, cs !! i = Some a ∧ cs !! j = Some b ∧ (i < j)%nat.

(** The identifiers that [register] was called with, in call order. *)
Definition registered_ids (cs : list Call) : list string :=
  flat_map (λ c, match c with CallRegister _ id => [id] | _ => [] end) cs.



(** The calls [register] makes besides being called: one [pause] of the
    registered element when its identifier differs. *)
Definition register_pauses (id : string) (w : World) : list Call :=
  match currentlyPlaying w with
  | Some cur =>
      if bool_decide (Registration.id cur ≠ id)
      then [CallPause (Registration.element cur)]
      else []
  | None => []
  end.

(** Audio elements are never removed and keep their [src]. *)
Definition heap_evolves (h h' : gmap nat AudioElement) : Prop :=
  ∀ e a, h !! e = Some a → ∃ a', h' !! e = Some a' ∧ src a' = src a.

(** What every reachable world satisfies: a mounted row has its audio
    element, whose [src] is the row's preview URL; a registration belongs
    to a mounted row and was made by a [register] call; and [register]
    was only ever called with an element that has a preview. *)
Record well_formed (w : World) : Prop := mkWellFormed {
  wf_refs : ∀ r row, rows w !! r = Some row →
            ∃ e a, audioRef row = Some e ∧ heap w !! e = Some a
                   ∧ src a = Track.previewUrl (track row);
  wf_owner : ∀ cur, currentlyPlaying w = Some cur →
            ∃ r row, rows w !! r = Some row
                     ∧ audioRef row = Some (Registration.element cur)
                     ∧ Track.id (track row) = Registration.id cur;
  wf_registered : ∀ cur, currentlyPlaying w = Some cur →
            In (CallRegister (Registration.element cur) (Registration.id cur)) (calls w);
  wf_calls : ∀ e id, In (CallRegister e id) (calls w) →
            ∃ a, heap w !! e = Some a ∧ truthy (src a) = true
}.

(** Only the registered element can be playing. *)
Definition playing_is_registered (w : World) : Prop :=
  ∀ e, playing w e = true →
       ∃ id, currentlyPlaying w = Some {| Registration.element := e; Registration.id := id |}.


(** ** Further vocabulary for the playback design *)


(** ** The client of spotifyAuth.js: token state, requests, playlists *)

(** The [SpotifyAuth] object of src/components/spotifyAuth.js, with the
    browser it runs in.  Numbers are integers or [NaN] (fractions and
    infinities are outside the model); [Number] and [encodeURIComponent]
    are the built-ins, taken as parameters, and the network is an oracle
    that answers a request given the requests made before it. *)
Module Auth.

Inductive jsnum :=
  | Num (z : Z)
  | NaN.

(** [String(n)] for a number: decimal digits, or ["NaN"]. *)
Definition string_of_num (n : jsnum) : string :=
  match n with
  | Num z => pretty z
  | NaN => "NaN"
  end.

(** What [this.expiresIn] can hold: [null], the number parsed from the
    URL, or the string read back from the storage. *)
Inductive field :=
  | Null
  | NumV (n : jsnum)
  | StrV (s : string).

Definition string_of_field (f : field) : string :=
  match f with
  | Null => "null"
  | NumV n => string_of_num n
  | StrV s => s
  end.

(** [a > n] for [a] a number or [null] ([null] converts to 0) and [n] an
    integer; any comparison with [NaN] is false. *)
Definition js_gt (a : option jsnum) (n : Z) : bool :=
  match a with
  | None => bool_decide (0 > n)
  | Some (Num z) => bool_decide (z > n)
  | Some NaN => false
  end.

(** [Date.now() + (expiresIn * 1000) - 60000]. *)
Definition expiration (now : Z) (expiresIn : jsnum) : jsnum :=
  match expiresIn with
  | Num z => Num (now + z * 1000 - 60000)
  | NaN => NaN
  end.

(** The three fields of the authentication state. *)
Record Memory := mkMemory {
  accessToken : option string;
  expiresIn : field;
  expirationTime : option jsnum
}.

(** A request as [fetchFromSpotify] issues it: URL, method, the token of
    the [Authorization: Bearer] header and the object that is serialised
    into the body. *)
Inductive Payload :=
  | PlaylistName (name : string)
  | NewPlaylist (name description : string) (public : bool)
  | TrackUris (uris : list string).

Record Request := mkRequest {
  url : string;
  method : string;
  bearer : string;
  body : option Payload
}.

(** A parsed JSON answer, as far as the callers read it: [null], or an
    object with the fields [tracks] and [id]. *)
Record JsonObject := mkJsonObject {
  search_view : Api.response;
  json_id : option string
}.

Inductive Json :=
  | JNull
  | JObj (o : JsonObject).

(** What [fetch] comes back with, and when: the promise rejects (network
    failure), or a response with a status whose body parses to JSON or
    does not. *)
Inductive Outcome :=
  | NetworkFailure
  | Response (status : Z) (json : option Json).

Record Reply := mkReply {
  arrival : Z;
  outcome : Outcome
}.

(** The browser: the page URL and its origin, [sessionStorage] ([None]
    when every access to it throws; a storage that is full is outside
    the model), the URL assigned to [window.location], the clock, and the
    requests sent so far.  The clock stands still during a synchronous
    call and moves on when a reply arrives; no other call of the client
    runs in between. *)
Record Browser := mkBrowser {
  href : string;
  origin : string;
  sessionStorage : option (gmap string string);
  assigned : option string;
  now : Z;
  requests : list Request
}.

Record State := mkState {
  memory : Memory;
  browser : Browser
}.

(** Why a promise of a client rejects: the error it carries. *)
Inductive Failure :=
  | NoAccessToken
  | MissingInput
  | NotAuthenticated
  | ApiError (status : Z)
  | FetchFailed
  | InvalidJson
  | TypeError.

Inductive settled (A : Type) :=
  | Resolved (v : A)
  | Failed (why : Failure).
Arguments Resolved {A} v.
Arguments Failed {A} why.

(** *** The two regular expressions *)

Fixpoint strip_prefix (p s : string) : option string :=
  match p, s with
  | EmptyString, _ => Some s
  | String a p', String b s' => if bool_decide (a = b) then strip_prefix p' s' else None
  | String _ _, EmptyString => None
  end.

(** The longest prefix without an ampersand: what the group of the
    regular expression, any number of characters other than ["&"],
    captures. *)
Fixpoint until_ampersand (s : string) : string :=
  match s with
  | EmptyString => EmptyString
  | String c s' =>
      if bool_decide (String c EmptyString = "&") then EmptyString
      else String c (until_ampersand s')
  end.

(** [s.match(re)] for [re] the literal [lit] followed by that group: the
    group captured at the leftmost occurrence of [lit], or [None] for
    [null]. *)
Fixpoint match_param (lit s : string) : option string :=
  match strip_prefix lit s with
  | Some rest => Some (until_ampersand rest)
  | None =>
      match s with
      | EmptyString => None
      | String _ s' => match_param lit s'
      end
  end.

Definition CLIENT_ID : string := "1e2b2bcef9364fed87cadcf8e09787ee".
Definition REDIRECT_URI : string := "http://127.0.0.1:3002/callback".
Definition SCOPE : string :=
  "playlist-modify-public playlist-modify-private user-read-private user-read-email".

Definition token_key : string := "spotify_access_token".
Definition expires_key : string := "spotify_expires_in".
Definition time_key : string := "spotify_expiration_time".

(** *** State updates *)

Definition set_memory (m : Memory) (st : State) : State :=
  {| memory := m; browser := browser st |}.

Definition set_storage (s : option (gmap string string)) (st : State) : State :=
  let b := browser st in
  {| memory := memory st;
     browser := {| href := href b; origin := origin b; sessionStorage := s;
                   assigned := assigned b; now := now b; requests := requests b |} |}.

Definition set_href (h : string) (st : State) : State :=
  let b := browser st in
  {| memory := memory st;
     browser := {| href := h; origin := origin b; sessionStorage := sessionStorage b;
                   assigned := assigned b; now := now b; requests := requests b |} |}.

Definition set_assigned (u : string) (st : State) : State :=
  let b := browser st in
  {| memory := memory st;
     browser := {| href := href b; origin := origin b; sessionStorage := sessionStorage b;
                   assigned := Some u; now := now b; requests := requests b |} |}.

Definition sent (rq : Request) (at_time : Z) (st : State) : State :=
  let b := browser st in
  {| memory := memory st;
     browser := {| href := href b; origin := origin b; sessionStorage := sessionStorage b;
                   assigned := assigned b; now := Z.max (now b) at_time;
                   requests := requests b ++ [rq] |} |}.

(** *** The methods *)

(** [isAuthenticated]:
    [this.accessToken !== null && this.expirationTime > Date.now()]. *)
Definition isAuthenticated (st : State) : bool :=
  bool_decide (accessToken (memory st) ≠ None)
  && js_gt (expirationTime (memory st)) (now (browser st)).

(** [saveTokenToStorage]: three [setItem] calls, each converting its
    value to a string; when the storage throws, nothing is stored. *)
Definition saveTokenToStorage (st : State) : State :=
  match sessionStorage (browser st) with
  | None => st
  | Some s =>
      let m := memory st in
      set_storage
        (Some (<[time_key := default "null" (string_of_num <$> expirationTime m)]>
               (<[expires_key := string_of_field (expiresIn m)]>
                (<[token_key := default "null" (accessToken m)]> s)))) st
  end.

(** [clearTokenData]: the three fields become [null], then the three
    keys are removed unless the storage throws. *)
Definition clearTokenData (st : State) : State :=
  let st := set_memory {| accessToken := None; expiresIn := Null;
                          expirationTime := None |} st in
  match sessionStorage (browser st) with
  | None => st
  | Some s =>
      set_storage (Some (delete time_key (delete expires_key (delete token_key s)))) st
  end.

(** [redirectToSpotifyAuth]: assigns the authorize URL to
    [window.location]. *)
Definition authorizeUrl (encodeURIComponent : string → string) : string :=
  "https://accounts.spotify.com/authorize?client_id=" +:+ CLIENT_ID
  +:+ "&response_type=token&scope=" +:+ encodeURIComponent SCOPE
  +:+ "&redirect_uri=" +:+ encodeURIComponent REDIRECT_URI.

Section Methods.

Variable Number : string → jsnum.
Variable encodeURIComponent : string → string.
Variable network : list Request → Request → Reply.

Definition redirectToSpotifyAuth (st : State) : State :=
  set_assigned (authorizeUrl encodeURIComponent) st.

(** [loadTokenFromStorage]:
[[
    const token = sessionStorage.getItem('spotify_access_token');
    const expirationTime = sessionStorage.getItem('spotify_expiration_time');
    if (token && expirationTime) {
      this.accessToken = token;
      this.expirationTime = Number(expirationTime);
      this.expiresIn = sessionStorage.getItem('spotify_expires_in');
      if (this.expirationTime > Date.now()) { return true; }
      else { this.clearTokenData(); }
    }
    ... return false;
]] *)
Definition loadTokenFromStorage (st : State) : bool * State :=
  match sessionStorage (browser st) with
  | None => (false, st)
  | Some s =>
      if truthy (s !! token_key) && truthy (s !! time_key) then
        let t := Number (default "" (s !! time_key)) in
        let st := set_memory
                    {| accessToken := s !! token_key;
                       expiresIn := match s !! expires_key with
                                    | Some v => StrV v
                                    | None => Null
                                    end;
                       expirationTime := Some t |} st in
        if js_gt (Some t) (now (browser st)) then (true, st)
        else (false, clearTokenData st)
      else (false, st)
  end.

(** [getAccessToken]: the token in memory if it is truthy and not
    expired; else the token of the page URL, which is stored and removed
    from the URL; else the token of the storage; else a redirect and
    [null]. *)
Definition getAccessToken (st : State) : option string * State :=
  let m := memory st in
  let b := browser st in
  if truthy (accessToken m) && js_gt (expirationTime m) (now b) then (accessToken m, st)
  else
    match match_param "access_token=" (href b), match_param "expires_in=" (href b) with
    | Some token, Some expires =>
        let n := Number expires in
        let st := set_memory
                    {| accessToken := Some token;
                       expiresIn := NumV n;
                       expirationTime := Some (expiration (now b) n) |} st in
        let st := saveTokenToStorage st in
        let st := set_href (origin b +:+ "/") st in
        (Some token, st)
    | _, _ =>
        let (loaded, st) := loadTokenFromStorage st in
        if loaded then (accessToken (memory st), st)
        else (None, redirectToSpotifyAuth st)
    end.

(** [fetch]: the request is recorded, and the reply arrives at the time
    the network says (never before now). *)
Definition fetch (rq : Request) (st : State) : Reply * State :=
  let rp := network (requests (browser st)) rq in
  (rp, sent rq (arrival rp) st).

(** [response.ok]. *)
Definition ok (status : Z) : bool :=
  bool_decide (200 ≤ status) && bool_decide (status ≤ 299).

(** [fetchFromSpotify(endpoint, options)]; [fuel] bounds the retries after
    a 401, and [None] is the call that ran out of it.
[[
    const token = this.getAccessToken();
    if (!token) { return Promise.reject(new Error('No access token available')); }
    ...
      const response = await fetch(`https://api.spotify.com/v1${endpoint}`, {...});
      if (response.status === 401) {
        this.clearTokenData();
        return this.fetchFromSpotify(endpoint, options);
      }
      if (!response.ok) { throw new Error(`Spotify API error: ${response.status}`); }
      if (response.status === 204) { return null; }
      return await response.json();
]] *)
Fixpoint fetchFromSpotify (fuel : nat) (endpoint : string) (method_ : option string)
         (body_ : option Payload) (st : State) : option (settled Json) * State :=
  match fuel with
  | O => (None, st)
  | S fuel' =>
      let (token, st) := getAccessToken st in
      match token with
      | Some tk =>
          if truthy token then
            let rq := {| url := "https://api.spotify.com/v1" +:+ endpoint;
                         method := if truthy method_ then default "GET" method_ else "GET";
                         bearer := tk;
                         body := body_ |} in
            let (rp, st) := fetch rq st in
            match outcome rp with
            | NetworkFailure => (Some (Failed FetchFailed), st)
            | Response status json =>
                if bool_decide (status = 401)
                then fetchFromSpotify fuel' endpoint method_ body_ (clearTokenData st)
                else if negb (ok status) then (Some (Failed (ApiError status)), st)
                else if bool_decide (status = 204) then (Some (Resolved JNull), st)
                else match json with
                     | Some j => (Some (Resolved j), st)
                     | None => (Some (Failed InvalidJson), st)
                     end
            end
          else (Some (Failed NoAccessToken), st)
      | None => (Some (Failed NoAccessToken), st)
      end
  end.

(** The argument that the [.then] callback of [search] receives. *)
Definition search_data (j : Json) : option Api.response :=
  match j with
  | JNull => None
  | JObj o => Some (search_view o)
  end.

(** [search(term)]: nothing is asked for a falsy term; otherwise one
    [fetchFromSpotify] whose result goes through the callback. *)
Definition search (fuel : nat) (term : string) (st : State)
  : option (settled (list Track.t)) * State :=
  if bool_decide (term = "") then (Some (Resolved []), st)
  else
    match fetchFromSpotify fuel ("/search?type=track&q=" +:+ encodeURIComponent term)
            None None st with
    | (Some (Resolved data), st) =>
        match SpotifyAuth.search (search_data data) with
        | Fulfilled ts => (Some (Resolved ts), st)
        | Rejected => (Some (Failed TypeError), st)
        end
    | (Some (Failed why), st) => (Some (Failed why), st)
    | (None, st) => (None, st)
    end.

(** [x.id] in a template string: [undefined] prints as ["undefined"];
    reading [.id] of [null] throws. *)
Definition id_of (j : Json) : option string :=
  match j with
  | JNull => None
  | JObj o => Some (default "undefined" (json_id o))
  end.

(** [savePlaylist(name, trackUris)]: resolves at once, without a
    request, when the name or the list is empty; otherwise asks for the
    user, creates the playlist and adds the tracks, in this order, each
    step using the identifier the previous one returned. *)
Definition savePlaylist (fuel : nat) (name : string) (trackUris : list string)
           (st : State) : option (settled (option Json)) * State :=
  if bool_decide (name = "") || bool_decide (trackUris = []) then (Some (Resolved None), st)
  else
    match fetchFromSpotify fuel "/me" None None st with
    | (Some (Resolved user), st) =>
        match id_of user with
        | None => (Some (Failed TypeError), st)
        | Some userId =>
            match fetchFromSpotify fuel ("/users/" +:+ userId +:+ "/playlists")
                    (Some "POST") (Some (PlaylistName name)) st with
            | (Some (Resolved playlist), st) =>
                match id_of playlist with
                | None => (Some (Failed TypeError), st)
                | Some playlistId =>
                    match fetchFromSpotify fuel ("/playlists/" +:+ playlistId +:+ "/tracks")
                            (Some "POST") (Some (TrackUris trackUris)) st with
                    | (Some (Resolved j), st) => (Some (Resolved (Some j)), st)
                    | (Some (Failed why), st) => (Some (Failed why), st)
                    | (None, st) => (None, st)
                    end
                end
            | (Some (Failed why), st) => (Some (Failed why), st)
            | (None, st) => (None, st)
            end
        end
    | (Some (Failed why), st) => (Some (Failed why), st)
    | (None, st) => (None, st)
    end.

End Methods.

End Auth.

(** No token in memory that [getAccessToken] would return as it is. *)
Definition no_valid_token (st : Auth.State) : Prop :=
  truthy (Auth.accessToken (Auth.memory st))
  && Auth.js_gt (Auth.expirationTime (Auth.memory st)) (Auth.now (Auth.browser st))
  = false.

(** A reload of the page at time [t] with URL [h]: the module state
    starts again from its initial values, the session storage stays. *)
Definition page_reload (h : string) (t : Z) (st : Auth.State) : Auth.State :=
  {| Auth.memory := {| Auth.accessToken := None; Auth.expiresIn := Auth.Null;
                       Auth.expirationTime := None |};
     Auth.browser := {| Auth.href := h;
                        Auth.origin := Auth.origin (Auth.browser st);
                        Auth.sessionStorage := Auth.sessionStorage (Auth.browser st);
                        Auth.assigned := None;
                        Auth.now := t;
                        Auth.requests := [] |} |}.

(** A page that has just been redirected back from the authorization
    with a token that lives for an hour, and a [Number] that reads the
    two numbers it meets. *)
Definition callback_state : Auth.State :=
  {| Auth.memory := {| Auth.accessToken := None; Auth.expiresIn := Auth.Null;
                       Auth.expirationTime := None |};
     Auth.browser :=
       {| Auth.href :=
            "http://127.0.0.1:3002/callback#access_token=BQD&token_type=Bearer&expires_in=3600";
          Auth.origin := "http://127.0.0.1:3002";
          Auth.sessionStorage := Some ∅;
          Auth.assigned := None;
          Auth.now := 1000000;
          Auth.requests := [] |} |}.

Definition sample_Number (s : string) : Auth.jsnum :=
  if bool_decide (s = "3600") then Auth.Num 3600
  else if bool_decide (s = "4540000") then Auth.Num 4540000
  else Auth.NaN.

Definition sample_encode (s : string) : string := s.

(** What [fetchFromSpotify] settles to on a reply other than a 401. *)
Definition settle_reply (o : Auth.Outcome) : Auth.settled Auth.Json :=
  match o with
  | Auth.NetworkFailure => Auth.Failed Auth.FetchFailed
  | Auth.Response status json =>
      if negb (Auth.ok status) then Auth.Failed (Auth.ApiError status)
      else if bool_decide (status = 204) then Auth.Resolved Auth.JNull
      else match json with
           | Some j => Auth.Resolved j
           | None => Auth.Failed Auth.InvalidJson
           end
  end.

(** The request [fetchFromSpotify] builds for a token. *)
Definition api_request (endpoint : string) (method_ : option string)
           (body_ : option Auth.Payload) (token : string) : Auth.Request :=
  {| Auth.url := "https://api.spotify.com/v1" +:+ endpoint;
     Auth.method := if truthy method_ then default "GET" method_ else "GET";
     Auth.bearer := token;
     Auth.body := body_ |}.

(** A truthy, unexpired token in memory. *)
Definition valid_token (tok : string) (st : Auth.State) : Prop :=
  Auth.accessToken (Auth.memory st) = Some tok ∧ tok ≠ ""
  ∧ Auth.js_gt (Auth.expirationTime (Auth.memory st)) (Auth.now (Auth.browser st)) = true.

(** A network that answers every request with 401, and one that answers
    the three requests of a playlist save. *)
Definition always_401 (_ : list Auth.Request) (_ : Auth.Request) : Auth.Reply :=
  {| Auth.arrival := 1000500; Auth.outcome := Auth.Response 401 None |}.

Definition json_with_id (i : string) : Auth.Json :=
  Auth.JObj {| Auth.search_view := {| Api.tracks := None |}; Auth.json_id := Some i |}.

Definition playlist_network (history : list Auth.Request) (_ : Auth.Request) : Auth.Reply :=
  match history with
  | [] => {| Auth.arrival := 1000100; Auth.outcome := Auth.Response 200 (Some (json_with_id "me")) |}
  | [_] => {| Auth.arrival := 1000200; Auth.outcome := Auth.Response 201 (Some (json_with_id "pl")) |}
  | _ => {| Auth.arrival := 1000300; Auth.outcome := Auth.Response 201 (Some (json_with_id "snap")) |}
  end.

Definition search_network (_ : list Auth.Request) (_ : Auth.Request) : Auth.Reply :=
  {| Auth.arrival := 1000100;
     Auth.outcome :=
       Auth.Response 200
         (Some (Auth.JObj {| Auth.search_view := sample_response;
                             Auth.json_id := None |})) |}.

(** The page after the token of [callback_state] was taken from the URL. *)
Definition signed_in_state : Auth.State :=
  (Auth.getAccessToken sample_Number sample_encode callback_state).2.

(** No token in memory and none in the storage. *)
Definition cleared (st : Auth.State) : Prop :=
  Auth.accessToken (Auth.memory st) = None
  ∧ ∀ s, Auth.sessionStorage (Auth.browser st) = Some s → s !! Auth.token_key = None.

(** The requests sent between two states. *)
Definition requests_since (st st' : Auth.State) : list Auth.Request :=
  drop (length (Auth.requests (Auth.browser st))) (Auth.requests (Auth.browser st')).

(** ** The client of src/util/Spotify.js *)

(** The older client keeps its token in three module variables, has no
    session storage, and asks for the token once per operation.  It runs
    in the same browser and talks to the same network as [Auth]; the
    storage field of the state is not used. *)
Module SpotifyJs.

Import Auth.

Definition clientId : string := "1e2b2bcef9364fed87cadcf8e09787ee".
Definition redirectUri : string := "http://127.0.0.1:3002/callback".
Definition scope : string := "playlist-modify-public playlist-modify-private".

Definition authorizeUrl (encodeURIComponent : string → string) : string :=
  "https://accounts.spotify.com/authorize?client_id=" +:+ clientId
  +:+ "&response_type=token&scope=" +:+ encodeURIComponent scope
  +:+ "&redirect_uri=" +:+ encodeURIComponent redirectUri.

(** [accessToken && expirationTime && Date.now() < expirationTime]: the
    expiration time must be a number other than 0 and [NaN]. *)
Definition unexpired (st : State) : bool :=
  truthy (accessToken (memory st))
  && match expirationTime (memory st) with
     | Some (Num z) => negb (bool_decide (z = 0)) && bool_decide (now (browser st) < z)
     | _ => false
     end.

(** [isAuthenticated]:
    [!!accessToken && !!expirationTime && Date.now() < expirationTime]. *)
Definition isAuthenticated (st : State) : bool := unexpired st.

(** [logout]: the three variables become [null]. *)
Definition logout (st : State) : State :=
  set_memory {| accessToken := None; expiresIn := Null; expirationTime := None |} st.

(** The two assignments made on a 401: [accessToken = null;
    expirationTime = null]. *)
Definition forget_token (st : State) : State :=
  set_memory {| accessToken := None; expiresIn := expiresIn (memory st);
                expirationTime := None |} st.

Section Methods.

Variable Number : string → jsnum.
Variable encodeURIComponent : string → string.
Variable network : list Request → Request → Reply.

(** [getAccessToken]: the token in memory while it is unexpired; else
    the token of the page URL, which is then removed from the URL; else
    a redirect to the authorization page and [null]. *)
Definition getAccessToken (st : State) : option string * State :=
  if unexpired st then (accessToken (memory st), st)
  else
    let b := browser st in
    match match_param "access_token=" (href b), match_param "expires_in=" (href b) with
    | Some token, Some expires =>
        let n := Number expires in
        let st := set_memory
                    {| accessToken := Some token;
                       expiresIn := NumV n;
                       expirationTime := Some (expiration (now b) n) |} st in
        (Some token, set_href (origin b +:+ "/") st)
    | _, _ => (None, set_assigned (authorizeUrl encodeURIComponent) st)
    end.

Definition search_request (term token : string) : Request :=
  {| url := "https://api.spotify.com/v1/search?type=track&q=" +:+ encodeURIComponent term;
     method := "GET";
     bearer := token;
     body := None |}.

(** [search(term)].  The promise never rejects: the final [.catch] turns
    every failure into the empty array.  After a 401 the token is
    forgotten and [search] is called again; what that call resolves to,
    an array, is handed to the second [.then], which finds no [tracks]
    in it and returns the empty array.  [None] is the call that ran out
    of [fuel].
[[
    const token = this.getAccessToken();
    if (!token) { return Promise.resolve([]); }
    return fetch(...)
    .then(response => {
      if (!response.ok) {
        if (response.status === 401) {
          accessToken = null; expirationTime = null;
          return this.search(term);
        }
        throw new Error(`Spotify API error: ${response.status}`);
      }
      return response.json();
    })
    .then(jsonResponse => { ... })
    .catch(error => { ...; return []; });
]] *)
Fixpoint search (fuel : nat) (term : string) (st : State)
  : option (list Track.t) * State :=
  match fuel with
  | O => (None, st)
  | S fuel' =>
      let (token, st) := getAccessToken st in
      match token with
      | Some tk =>
          if truthy token then
            let rq := search_request term tk in
            let rp := network (requests (browser st)) rq in
            let st := sent rq (arrival rp) st in
            match outcome rp with
            | NetworkFailure => (Some [], st)
            | Response status json =>
                if negb (ok status) then
                  if bool_decide (status = 401) then
                    match search fuel' term (forget_token st) with
                    | (Some _, st) => (Some [], st)
                    | (None, st) => (None, st)
                    end
                  else (Some [], st)
                else
                  match json with
                  | Some (JObj o) =>
                      match Spotify.search (search_view o) with
                      | Fulfilled ts => (Some ts, st)
                      | Rejected => (Some [], st)
                      end
                  | Some JNull => (Some [], st)
                  | None => (Some [], st)
                  end
            end
          else (Some [], st)
      | None => (Some [], st)
      end
  end.

(** One step of [savePlaylist]: a request with the token obtained at the
    start, rejected unless the response is [ok] and its body parses. *)
Definition step (rq : Request) (st : State) : settled Json * State :=
  let rp := network (requests (browser st)) rq in
  let st := sent rq (arrival rp) st in
  match outcome rp with
  | NetworkFailure => (Failed FetchFailed, st)
  | Response status json =>
      if negb (ok status) then (Failed (ApiError status), st)
      else match json with
           | Some j => (Resolved j, st)
           | None => (Failed InvalidJson, st)
           end
  end.

Definition request (path method_ token : string) (body_ : option Payload) : Request :=
  {| url := "https://api.spotify.com/v1" +:+ path;
     method := method_;
     bearer := token;
     body := body_ |}.

(** [savePlaylist(name, trackUris)]: rejects without a request when the
    name or the list is empty or no token is available; otherwise asks
    for the user, creates a public playlist and adds the tracks, all
    with the token obtained at the start. *)
Definition savePlaylist (name : string) (trackUris : list string) (st : State)
  : settled Json * State :=
  if bool_decide (name = "") || bool_decide (trackUris = []) then (Failed MissingInput, st)
  else
    let (token, st) := getAccessToken st in
    match token with
    | Some tk =>
        if truthy token then
          match step (request "/me" "GET" tk None) st with
          | (Resolved user, st) =>
              match id_of user with
              | None => (Failed TypeError, st)
              | Some userId =>
                  match step (request ("/users/" +:+ userId +:+ "/playlists") "POST" tk
                                (Some (NewPlaylist name "Created with Jammming" true)))
                          st with
                  | (Resolved playlist, st) =>
                      match id_of playlist with
                      | None => (Failed TypeError, st)
                      | Some playlistId =>
                          step (request ("/playlists/" +:+ playlistId +:+ "/tracks")
                                  "POST" tk (Some (TrackUris trackUris))) st
                      end
                  | (Failed why, st) => (Failed why, st)
                  end
              end
          | (Failed why, st) => (Failed why, st)
          end
        else (Failed NotAuthenticated, st)
    | None => (Failed NotAuthenticated, st)
    end.

End Methods.

End SpotifyJs.

(** A truthy token in memory that [SpotifyJs.getAccessToken] returns as
    it is. *)
Definition unexpired_token (tok : string) (st : Auth.State) : Prop :=
  Auth.accessToken (Auth.memory st) = Some tok ∧ tok ≠ ""
  ∧ SpotifyJs.unexpired st = true.

(** The session storage holds the token of the memory with its
    expiration time, as [saveTokenToStorage] wrote them. *)
Definition stored_as_saved (tok : string) (exp : Z) (st : Auth.State) : Prop :=
  ∃ s, Auth.sessionStorage (Auth.browser st) = Some s
       ∧ s !! Auth.token_key = Some tok
       ∧ s !! Auth.time_key = Some (pretty exp).

(** A network whose first answer arrives after the token of
    [signed_in_state] has expired. *)
Definition slow_network (_ : list Auth.Request) (_ : Auth.Request) : Auth.Reply :=
  {| Auth.arrival := 5000000;
     Auth.outcome := Auth.Response 200 (Some (json_with_id "me")) |}.
(** * Properties *)

(** ** formatDuration *)

Section FormatDuration.

Local Open Scope Z_scope.

Lemma seconds_range (ms : Z) : 0 ≤ ms → 0 ≤ spec_seconds ms ≤ 59.
Proof.
  intros Hms. unfold spec_seconds.
  pose proof (Z.mod_pos_bound ms 60000 ltac:(lia)) as Hr.
  split.
  - apply Z.div_pos; lia.
  - apply Z.lt_succ_r. apply Z.div_lt_upper_bound; lia.
Qed.

Lemma two_digits_table :
  Forall (λ n, two_digits n = pretty (n `div` 10) +:+ pretty (n `mod` 10)
               ∧ String.length (two_digits n) = 2%nat)
         (seqZ 0 60).
Proof.
  refine (bool_decide_unpack _ _). vm_compute. exact I.
Qed.

Lemma two_digits_shape (n : Z) :
  0 ≤ n ≤ 59 →
  two_digits n = pretty (n `div` 10) +:+ pretty (n `mod` 10)
  ∧ String.length (two_digits n) = 2%nat.
Proof.
  intros Hn.
  pose proof two_digits_table as Ht.
  rewrite Forall_forall in Ht. apply Ht.
  apply elem_of_seqZ. lia.
Qed.

Lemma formatDuration_unfold (ms : Z) :
  formatDuration ms =
  pretty (ms `div` 60000) +:+ ":" +:+ two_digits ((ms `rem` 60000) `div` 1000).
Proof.
  unfold formatDuration, two_digits.
  destruct (bool_decide _); reflexivity.
Qed.

(** *** Agreement with the double-precision function below [2^53] *)

Lemma round_half_even_near (n d : Z) :
  0 < d → 2 * n - d ≤ 2 * (round_half_even n d * d) ≤ 2 * n + d.
Proof.
  intros Hd. unfold round_half_even.
  pose proof (Z.div_mod n d ltac:(lia)) as Hn.
  pose proof (Z.mod_pos_bound n d Hd) as Hr.
  repeat case_bool_decide; try destruct (Z.even _); nia.
Qed.

Lemma binade_le (a b : Z) : binade a b ≤ Z.log2 a - Z.log2 b.
Proof. unfold binade. case_bool_decide; lia. Qed.

(** When the grid of doubles around the quotient is finer than [1/b],
    rounding the quotient never reaches the next integer. *)
Lemma floor_of_quotient_exact (a b : Z) :
  0 ≤ a → 0 < b → binade a b < 52 → b < 2 ^ (53 - binade a b) →
  floor_of_quotient a b = a `div` b.
Proof.
  intros Ha Hb He Hs. unfold floor_of_quotient.
  case_bool_decide as Hz; [subst a; reflexivity |].
  cbv zeta. case_bool_decide as Hneg; [lia |].
  replace (53 - binade a b) with (Z.succ (- (binade a b - 52))) in Hs by lia.
  rewrite Z.pow_succ_r in Hs by lia.
  set (s := 2 ^ (- (binade a b - 52))) in *.
  assert (0 < s) as Hspos by (apply Z.pow_pos_nonneg; lia).
  pose proof (round_half_even_near (a * s) b Hb) as Hm.
  set (m := round_half_even (a * s) b) in *.
  pose proof (Z.div_mod a b ltac:(lia)) as Hab.
  pose proof (Z.mod_pos_bound a b Hb) as Hr.
  set (k := a `div` b) in *. set (r := a `mod` b) in *.
  symmetry. apply (Z.div_unique m s k (m - k * s)); [| lia].
  left. split; nia.
Qed.

Lemma log2_below (a n : Z) : 0 ≤ a < 2 ^ n → 0 < n → Z.log2 a < n.
Proof.
  intros [Ha Hlt] Hn.
  destruct (decide (a = 0)) as [-> | Hne]; [simpl; lia |].
  apply Z.log2_lt_pow2; lia.
Qed.

Lemma minutes_exact (ms : Z) :
  0 ≤ ms < 2 ^ 53 → floor_of_quotient ms 60000 = ms `div` 60000.
Proof.
  intros Hms.
  pose proof (log2_below ms 53 Hms ltac:(lia)) as Hl.
  pose proof (binade_le ms 60000) as Hb.
  change (Z.log2 60000) with 15 in Hb.
  apply floor_of_quotient_exact; try lia.
  apply Z.lt_le_trans with (2 ^ 16); [reflexivity |].
  apply Z.pow_le_mono_r; lia.
Qed.

Lemma seconds_exact (r : Z) :
  0 ≤ r < 60000 → floor_of_quotient r 1000 = r `div` 1000.
Proof.
  intros Hr.
  pose proof (log2_below r 16 ltac:(change (2 ^ 16) with 65536; lia) ltac:(lia)) as Hl.
  pose proof (binade_le r 1000) as Hb.
  change (Z.log2 1000) with 9 in Hb.
  apply floor_of_quotient_exact; try lia.
  apply Z.lt_le_trans with (2 ^ 10); [reflexivity |].
  apply Z.pow_le_mono_r; lia.
Qed.

(** Below [2^53] no rounding is visible: the function on doubles is the
    function on integers. *)
Lemma formatDuration_double_exact (ms : Z) :
  0 ≤ ms < 2 ^ 53 → formatDuration_double ms = Some (formatDuration ms).
Proof.
  intros Hms. unfold formatDuration_double, formatDuration, is_double.
  rewrite (bool_decide_eq_true_2 (0 ≤ ms)) by lia.
  rewrite (bool_decide_eq_true_2 (Z.abs ms < 2 ^ 53)) by lia.
  cbn [andb orb]. cbv zeta.
  rewrite Z.rem_mod_nonneg by lia.
  pose proof (Z.mod_pos_bound ms 60000 ltac:(lia)) as Hr.
  rewrite minutes_exact, seconds_exact by lia.
  assert (0 ≤ ms `div` 60000 ≤ ms) as Hq.
  { split; [apply Z.div_pos; lia |]. apply Z.div_le_upper_bound; lia. }
  assert (0 ≤ (ms `mod` 60000) `div` 1000 ≤ ms `mod` 60000) as Hq'.
  { split; [apply Z.div_pos; lia |]. apply Z.div_le_upper_bound; lia. }
  unfold number_to_string.
  rewrite (bool_decide_eq_true_2 (Z.abs (ms `div` 60000) < 2 ^ 53)) by lia.
  rewrite (bool_decide_eq_true_2 (Z.abs ((ms `mod` 60000) `div` 1000) < 2 ^ 53))
    by (change (2 ^ 53) with 9007199254740992; lia).
  reflexivity.
Qed.

(** C10, as stated, fails for a large integer: [1152921504606899968]
    is [(2^52 + 207) * 2^8], a double, and [60000 * 19215358410115 - 32].
    Its quotient by 60000 lies [32/60000] below the integer
    [19215358410115], closer than half the spacing [2^-8] of the doubles
    there, so the division yields that integer and [Math.floor] keeps
    it: the minutes printed are one more than [floor(ms / 60000)]. *)
Lemma formatDuration_rounds_up_counterexample :
  0 ≤ 1152921504606899968
  ∧ is_double 1152921504606899968 = true
  ∧ formatDuration_double 1152921504606899968 = Some "19215358410115:59"
  ∧ spec_minutes 1152921504606899968 = 19215358410114
  ∧ spec_formatDuration 1152921504606899968 = "19215358410114:59"
  ∧ formatDuration_double 1152921504606899968
    ≠ Some (spec_formatDuration 1152921504606899968).
Proof.
  split; [lia |].
  repeat split; try (vm_compute; reflexivity).
  vm_compute. discriminate.
Qed.

(** C10, amended: for a non-negative integer [ms] below [2^53],
    [formatDuration(ms)] - on doubles as on integers - is [m + ":" + ss]
    with [m = floor(ms / 60000)] and [ss = floor((ms mod 60000) / 1000)]
    padded with a zero below ten; the seconds lie in [0, 59] and are
    rendered as exactly two decimal digits. *)
Theorem formatDuration_spec (ms : Z) :
  0 ≤ ms < 2 ^ 53 →
  formatDuration_double ms = Some (spec_formatDuration ms)
  ∧ formatDuration ms = spec_formatDuration ms
  ∧ 0 ≤ spec_seconds ms ≤ 59
  ∧ two_digits (spec_seconds ms)
    = pretty (spec_seconds ms `div` 10) +:+ pretty (spec_seconds ms `mod` 10)
  ∧ String.length (two_digits (spec_seconds ms)) = 2%nat.
Proof.
  intros Hms.
  pose proof (seconds_range ms ltac:(lia)) as Hs.
  destruct (two_digits_shape _ Hs) as [Hd Hl].
  assert (formatDuration ms = spec_formatDuration ms) as Heq.
  { rewrite formatDuration_unfold.
    unfold spec_formatDuration, spec_minutes, spec_seconds.
    rewrite Z.rem_mod_nonneg by lia. reflexivity. }
  repeat split; try lia; try assumption.
  rewrite formatDuration_double_exact by exact Hms. congruence.
Qed.

Lemma formatDuration_spec_witness :
  0 ≤ 185000 < 2 ^ 53
  ∧ formatDuration_double 185000 = Some "3:05"
  ∧ formatDuration 185000 = "3:05"
  ∧ spec_formatDuration 185000 = "3:05"
  ∧ spec_seconds 185000 = 5.
Proof.
  assert (0 ≤ 185000 < 2 ^ 53) as Hb by (change (2 ^ 53) with 9007199254740992; lia).
  destruct (formatDuration_spec 185000 Hb) as (Hd & Heq & _).
  split; [exact Hb |].
  split; [rewrite Hd |]; [| split; [rewrite Heq |]]; repeat split; vm_compute; reflexivity.
Defined.

End FormatDuration.

(** ** search *)

Lemma map_throwing_Forall {A B : Type} (P : B → Prop) (f : A → option B) l ys :
  (∀ x y, f x = Some y → P y) →
  map_throwing f l = Some ys → Forall P ys.
Proof.
  intros Hf. revert ys.
  induction l as [| x l IH]; intros ys Hm; simpl in Hm.
  - injection Hm as <-. constructor.
  - destruct (f x) as [y |] eqn:Hx; [| discriminate].
    destruct (map_throwing f l) as [ys' |]; [| discriminate].
    injection Hm as <-. constructor; eauto.
Qed.

Lemma normalize_track_no_preview (a : Api.track) (t : Track.t) :
  normalize_track a = Some t → Track.previewUrl t = None.
Proof.
  unfold normalize_track.
  destruct (Api.artists a) as [[| [first |] rest] |]; try discriminate.
  destruct (Api.track_album a); [| discriminate].
  intros [= <-]. reflexivity.
Qed.

(** Whatever the catalog answers, no record returned by either [search]
    carries a preview URL. *)
Lemma search_never_has_preview (resp : Api.response) (ts : list Track.t) :
  SpotifyAuth.search (Some resp) = Fulfilled ts ∨ Spotify.search resp = Fulfilled ts →
  Forall (λ t, Track.previewUrl t = None) ts.
Proof.
  unfold SpotifyAuth.search, Spotify.search.
  destruct (Api.tracks resp) as [p |]; [| intros [[= <-] | [= <-]]; constructor].
  destruct (Api.items p) as [its |]; [| intros [[= <-] | [= <-]]; constructor].
  destruct (map_throwing normalize_item its) as [ys |] eqn:Hm.
  - intros [[= <-] | [= <-]];
      (eapply map_throwing_Forall; [| exact Hm]);
      intros [a |] t Ht; try discriminate;
      exact (normalize_track_no_preview a t Ht).
  - intros [[=] | [= <-]]; constructor.
Qed.

(** C6: on a catalog entry that has a preview, both [search]
    implementations return a record without a preview URL, whereas the
    mapping of the preview design keeps it. *)
Theorem search_drops_preview_url :
  Api.preview_url sample_item = Some "a.mp3"
  ∧ SpotifyAuth.search (Some sample_response) = Fulfilled [sample_record]
  ∧ Spotify.search sample_response = Fulfilled [sample_record]
  ∧ Track.previewUrl sample_record = None
  ∧ (Track.previewUrl <$> PreviewDesign.normalize_track sample_item) = Some (Some "a.mp3").
Proof.
  repeat split; vm_compute; reflexivity.
Qed.

(** ** The coordinator *)

Section Coordinator.

Local Open Scope nat_scope.

Lemma calls_since_app (w w' : World) (cs : list Call) :
  calls w' = calls w ++ cs → calls_since w w' = cs.
Proof.
  intros H. unfold calls_since. rewrite H. apply drop_app_length.
Qed.

Lemma playing_pause (e e' : nat) (w : World) :
  playing (pause e w) e' = if decide (e = e') then false else playing w e'.
Proof.
  unfold playing, pause; simpl. rewrite lookup_alter.
  destruct (decide (e = e')) as [-> |]; [| reflexivity].
  destruct (heap w !! e'); reflexivity.
Qed.

Lemma playing_play (e e' : nat) (w : World) :
  playing (play e w) e' =
  if decide (e = e') then bool_decide (is_Some (heap w !! e')) else playing w e'.
Proof.
  unfold playing, play; simpl. rewrite lookup_alter.
  destruct (decide (e = e')) as [-> |]; [| reflexivity].
  destruct (heap w !! e') as [a |]; reflexivity.
Qed.

Lemma register_currentlyPlaying (e : nat) (id : string) (w : World) :
  currentlyPlaying (register e id w)
  = Some {| Registration.element := e; Registration.id := id |}.
Proof. reflexivity. Qed.

Lemma register_rows (e : nat) (id : string) (w : World) :
  rows (register e id w) = rows w.
Proof.
  unfold register; simpl.
  destruct (currentlyPlaying w) as [cur |]; [| reflexivity].
  destruct (bool_decide _); reflexivity.
Qed.

Lemma register_calls (e : nat) (id : string) (w : World) :
  calls (register e id w) = calls w ++ CallRegister e id :: register_pauses id w.
Proof.
  unfold register, register_pauses; simpl.
  destruct (currentlyPlaying w) as [cur |]; [| reflexivity].
  destruct (bool_decide _); simpl; [| reflexivity].
  rewrite <- app_assoc. reflexivity.
Qed.

Lemma register_heap (e : nat) (id : string) (w : World) :
  heap (register e id w) =
  match currentlyPlaying w with
  | Some cur =>
      if bool_decide (Registration.id cur ≠ id)
      then alter (set_paused true) (Registration.element cur) (heap w)
      else heap w
  | None => heap w
  end.
Proof.
  unfold register; simpl.
  destruct (currentlyPlaying w) as [cur |]; [| reflexivity].
  destruct (bool_decide _); reflexivity.
Qed.

Lemma playing_register (e e' : nat) (id : string) (w : World) :
  playing (register e id w) e' =
  match currentlyPlaying w with
  | Some cur =>
      if bool_decide (Registration.id cur ≠ id)
      then (if decide (Registration.element cur = e') then false else playing w e')
      else playing w e'
  | None => playing w e'
  end.
Proof.
  unfold playing at 1. rewrite register_heap.
  destruct (currentlyPlaying w) as [cur |]; [| reflexivity].
  destruct (bool_decide _); [| reflexivity].
  rewrite lookup_alter.
  destruct (decide (Registration.element cur = e')) as [-> |]; [| reflexivity].
  destruct (heap w !! e'); reflexivity.
Qed.

Lemma unregister_currentlyPlaying (id : string) (w : World) :
  currentlyPlaying (unregister id w) =
  match currentlyPlaying w with
  | Some cur => if bool_decide (Registration.id cur = id) then None else Some cur
  | None => None
  end.
Proof.
  unfold unregister; simpl.
  destruct (currentlyPlaying w) as [cur |] eqn:Hc; [| simpl; assumption].
  destruct (bool_decide _); simpl; [reflexivity | assumption].
Qed.

Lemma unregister_frame (id : string) (w : World) :
  heap (unregister id w) = heap w
  ∧ rows (unregister id w) = rows w
  ∧ calls (unregister id w) = calls w ++ [CallUnregister id].
Proof.
  unfold unregister; simpl.
  destruct (currentlyPlaying w) as [cur |]; [| auto].
  destruct (bool_decide _); auto.
Qed.

Lemma playing_unregister (id : string) (w : World) (e : nat) :
  playing (unregister id w) e = playing w e.
Proof.
  unfold playing. destruct (unregister_frame id w) as (-> & _). reflexivity.
Qed.

(** C3: [unregister id] empties the slot exactly when the registered
    identifier is [id]; otherwise the registration stays as it is, so a
    release of [a] after [register el b] with [a ≠ b] keeps [b]; on an
    empty slot it changes nothing.  It never touches an audio element or
    a row, and it always returns. *)
Theorem unregister_guarded (w : World) (a b : string) (el : nat) :
  (∀ cur, currentlyPlaying w = Some cur →
     (currentlyPlaying (unregister a w) = None ↔ Registration.id cur = a)
     ∧ (Registration.id cur ≠ a → currentlyPlaying (unregister a w) = Some cur))
  ∧ (a ≠ b →
     currentlyPlaying (unregister a (register el b w))
     = Some {| Registration.element := el; Registration.id := b |})
  ∧ (currentlyPlaying w = None → currentlyPlaying (unregister a w) = None)
  ∧ heap (unregister a w) = heap w
  ∧ rows (unregister a w) = rows w
  ∧ calls_since w (unregister a w) = [CallUnregister a].
Proof.
  destruct (unregister_frame a w) as (Hh & Hr & Hc).
  repeat split; try assumption.
  - rewrite unregister_currentlyPlaying, H.
    destruct (bool_decide_reflect (Registration.id cur = a)); [congruence | discriminate].
  - intros Heq. rewrite unregister_currentlyPlaying, H.
    rewrite bool_decide_eq_true_2; auto.
  - intros Hne. rewrite unregister_currentlyPlaying, H.
    rewrite bool_decide_eq_false_2; auto.
  - intros Hne. rewrite unregister_currentlyPlaying, register_currentlyPlaying; simpl.
    rewrite bool_decide_eq_false_2; auto.
  - intros Hn. rewrite unregister_currentlyPlaying, Hn. reflexivity.
  - apply calls_since_app. assumption.
Qed.

Lemma unregister_guarded_witness :
  "1" ≠ "3"
  ∧ currentlyPlaying (unregister "1" (register 2 "3" initial))
    = Some {| Registration.element := 2; Registration.id := "3" |}
  ∧ currentlyPlaying (unregister "1" initial) = None.
Proof.
  destruct (unregister_guarded initial "1" "3" 2) as (_ & Hab & Hnone & _).
  split; [discriminate |].
  split; [apply Hab; discriminate | apply Hnone; reflexivity].
Defined.

(** C7: [register el id] when [id] is already the registered identifier
    makes no [pause] call and leaves every audio element as it was; it
    only stores the registration again, and repeating it changes neither
    the heap nor the slot. *)
Theorem register_same_id_no_pause (w : World) (cur : Registration.t) (el : nat) :
  currentlyPlaying w = Some cur →
  let id := Registration.id cur in
  let w' := register el id w in
  calls_since w w' = [CallRegister el id]
  ∧ heap w' = heap w
  ∧ rows w' = rows w
  ∧ currentlyPlaying w' = Some {| Registration.element := el; Registration.id := id |}
  ∧ heap (register el id w') = heap w'
  ∧ currentlyPlaying (register el id w') = currentlyPlaying w'
  ∧ calls_since w' (register el id w') = [CallRegister el id].
Proof.
  intros Hc id w'.
  assert (Hp : ∀ w0 c0, currentlyPlaying w0 = Some c0 → Registration.id c0 = id →
                        register_pauses id w0 = [] ∧ heap (register el id w0) = heap w0).
  { intros w0 c0 H0 Hid. unfold register_pauses. rewrite register_heap, H0.
    rewrite bool_decide_eq_false_2 by (intros Hne; apply Hne; exact Hid). auto. }
  destruct (Hp w cur Hc eq_refl) as [Hp1 Hh1].
  destruct (Hp w' _ (register_currentlyPlaying el id w) eq_refl) as [Hp2 Hh2].
  repeat split.
  - apply calls_since_app. subst w'. rewrite register_calls, Hp1. reflexivity.
  - exact Hh1.
  - apply register_rows.
  - exact Hh2.
  - apply calls_since_app. rewrite register_calls, Hp2. reflexivity.
Qed.

Lemma register_same_id_no_pause_witness :
  let w := play 0 (register 0 "1" (mount 0 0 track1 initial)) in
  currentlyPlaying w = Some {| Registration.element := 0; Registration.id := "1" |}
  ∧ calls_since w (register 0 "1" w) = [CallRegister 0 "1"]
  ∧ playing (register 0 "1" w) 0 = true.
Proof.
  intros w.
  destruct (register_same_id_no_pause w
              {| Registration.element := 0; Registration.id := "1" |} 0 eq_refl)
    as (Hcalls & Hheap & _).
  split; [reflexivity |].
  split; [exact Hcalls |].
  unfold playing. cbv zeta in Hheap. cbn [Registration.id] in Hheap.
  rewrite Hheap. reflexivity.
Defined.

End Coordinator.

(** ** The track row *)

Section TrackRow.

Local Open Scope nat_scope.

Lemma setIsPlaying_frame (r : nat) (b : bool) (w : World) :
  heap (setIsPlaying r b w) = heap w
  ∧ currentlyPlaying (setIsPlaying r b w) = currentlyPlaying w
  ∧ rows (setIsPlaying r b w) = alter (set_isPlaying b) r (rows w)
  ∧ calls (setIsPlaying r b w) = calls w ++ [CallSetIsPlaying r b].
Proof. repeat split. Qed.

(** The handlers of the media events write the flag and nothing else. *)
Lemma handleAudioEnd_frame (r : nat) (w : World) :
  currentlyPlaying (handleAudioEnd r w) = currentlyPlaying w
  ∧ heap (handleAudioEnd r w) = heap w
  ∧ calls_since w (handleAudioEnd r w) = [CallSetIsPlaying r false]
  ∧ handleAudioError r w = handleAudioEnd r w.
Proof.
  repeat split. apply calls_since_app. reflexivity.
Qed.

(** [togglePlay] from [Idle], for a row that has a preview and its audio
    element. *)
Lemma togglePlay_idle (w : World) (r : nat) (row : Row) (e : nat) :
  audioRef row = Some e →
  truthy (Track.previewUrl (track row)) = true →
  isPlaying row = false →
  togglePlay r row w
  = Some (setIsPlaying r true (register e (Track.id (track row)) (play e w))).
Proof.
  intros He Hp Hi. unfold togglePlay. rewrite Hp, He, Hi. reflexivity.
Qed.

(** [togglePlay] from [Playing]. *)
Lemma togglePlay_playing (w : World) (r : nat) (row : Row) (e : nat) :
  audioRef row = Some e →
  truthy (Track.previewUrl (track row)) = true →
  isPlaying row = true →
  togglePlay r row w
  = Some (setIsPlaying r false (unregister (Track.id (track row)) (pause e w))).
Proof.
  intros He Hp Hi. unfold togglePlay. rewrite Hp, He, Hi. reflexivity.
Qed.

(** C5 (as the code has it): toggling an idle row that has a preview
    first starts the row's own audio element and then calls [register]
    with that element and the track identifier; [register] pauses the
    element of a different registered track, and the flag is set last. *)
Theorem togglePlay_starts_then_registers (w : World) (r : nat) (row : Row) (e : nat) :
  audioRef row = Some e →
  truthy (Track.previewUrl (track row)) = true →
  isPlaying row = false →
  let id := Track.id (track row) in
  ∃ w', togglePlay r row w = Some w'
        ∧ calls_since w w'
          = CallPlay e :: CallRegister e id :: register_pauses id w
            ++ [CallSetIsPlaying r true]
        ∧ called_before (CallPlay e) (CallRegister e id) (calls_since w w')
        ∧ currentlyPlaying w'
          = Some {| Registration.element := e; Registration.id := id |}.
Proof.
  intros He Hp Hi id. eexists. split; [apply togglePlay_idle; eassumption |].
  assert (Hc : calls_since w
                 (setIsPlaying r true (register e (Track.id (track row)) (play e w)))
               = CallPlay e :: CallRegister e id :: register_pauses id w
                 ++ [CallSetIsPlaying r true]).
  { apply calls_since_app.
    destruct (setIsPlaying_frame r true (register e (Track.id (track row)) (play e w)))
      as (_ & _ & _ & ->).
    rewrite register_calls.
    change (calls (play e w)) with (calls w ++ [CallPlay e]).
    change (register_pauses (Track.id (track row)) (play e w))
      with (register_pauses id w).
    rewrite <- !app_assoc. reflexivity. }
  split; [exact Hc |]. split.
  - rewrite Hc. exists 0, 1. repeat split. lia.
  - reflexivity.
Qed.

Lemma togglePlay_starts_then_registers_witness :
  ∃ w w', run three_rows initial = Some w
          ∧ togglePlay 0 (mkRow track1 false (Some 0)) w = Some w'
          ∧ calls_since w w' = [CallPlay 0; CallRegister 0 "1"; CallSetIsPlaying 0 true].
Proof.
  eexists.
  destruct (togglePlay_starts_then_registers
              (mount 2 2 track3 (mount 1 1 track2 (mount 0 0 track1 initial)))
              0 (mkRow track1 false (Some 0)) 0 eq_refl eq_refl eq_refl)
    as (w' & Ht & Hc & _).
  exists w'. split; [reflexivity |]. split; [exact Ht | exact Hc].
Defined.

(** C5 (as stated) fails: when the idle row of track 1 is toggled,
    [register] is not called before the audio element is started. *)
Lemma togglePlay_registers_first_counterexample :
  ∃ w w', run three_rows initial = Some w
          ∧ row_state w 0 = Some Idle
          ∧ dispatch (Click 0) w = Some w'
          ∧ calls_since w w' = [CallPlay 0; CallRegister 0 "1"; CallSetIsPlaying 0 true]
          ∧ ¬ called_before (CallRegister 0 "1") (CallPlay 0) (calls_since w w').
Proof.
  eexists. eexists.
  split; [reflexivity |]. split; [reflexivity |]. split; [reflexivity |].
  split; [reflexivity |].
  intros (i & j & Hi & Hj & Hlt).
  change (calls_since _ _) with [CallPlay 0; CallRegister 0 "1"; CallSetIsPlaying 0 true]
    in Hi, Hj.
  destruct i as [| [| [| i]]]; simpl in Hi; try discriminate.
  destruct j as [| [| [| j]]]; simpl in Hj; try discriminate; lia.
Qed.

(** C1: after track 1 was started, the [ended] event and the [error]
    event each reset the row to [Idle] and leave the registration of
    track 1 in the slot; no [unregister] call is made. *)
Theorem ended_keeps_registration :
  ∃ w w1 w2,
    run (three_rows ++ [Click 0]) initial = Some w
    ∧ row_state w 0 = Some Playing
    ∧ currentlyPlaying w = Some {| Registration.element := 0; Registration.id := "1" |}
    ∧ dispatch (Ended 0) w = Some w1
    ∧ row_state w1 0 = Some Idle
    ∧ currentlyPlaying w1 = Some {| Registration.element := 0; Registration.id := "1" |}
    ∧ calls_since w w1 = [CallSetIsPlaying 0 false]
    ∧ dispatch (Error 0) w = Some w2
    ∧ row_state w2 0 = Some Idle
    ∧ currentlyPlaying w2 = Some {| Registration.element := 0; Registration.id := "1" |}
    ∧ calls_since w w2 = [CallSetIsPlaying 0 false].
Proof.
  eexists. eexists. eexists.
  repeat (split; [reflexivity |]). reflexivity.
Qed.

(** C4: track 1 is playing and track 3 is toggled: the coordinator pauses
    the element of track 1, and the row of track 1 still reports
    [Playing]. *)
Theorem external_pause_keeps_flag :
  ∃ w,
    run (three_rows ++ [Click 0; Click 2]) initial = Some w
    ∧ currentlyPlaying w = Some {| Registration.element := 2; Registration.id := "3" |}
    ∧ In (CallPause 0) (calls w)
    ∧ playing w 0 = false
    ∧ row_state w 0 = Some Playing.
Proof.
  eexists. split; [reflexivity |]. split; [reflexivity |].
  split; [| split; reflexivity].
  vm_compute. tauto.
Qed.

Lemma cleanup_currentlyPlaying (row : Row) (w : World) :
  currentlyPlaying (cleanup row w) =
  match currentlyPlaying w with
  | Some cur =>
      if bool_decide (Registration.id cur = Track.id (track row)) then None else Some cur
  | None => None
  end.
Proof.
  unfold cleanup. rewrite unregister_currentlyPlaying.
  destruct (audioRef row); reflexivity.
Qed.

Lemma cleanup_heap (row : Row) (w : World) :
  heap (cleanup row w) =
  match audioRef row with
  | Some e => alter (set_paused true) e (heap w)
  | None => heap w
  end.
Proof.
  unfold cleanup.
  destruct (unregister_frame (Track.id (track row))
              match audioRef row with Some e => pause e w | None => w end) as (-> & _).
  destruct (audioRef row); reflexivity.
Qed.

Lemma cleanup_rows (row : Row) (w : World) : rows (cleanup row w) = rows w.
Proof.
  unfold cleanup.
  destruct (unregister_frame (Track.id (track row))
              match audioRef row with Some e => pause e w | None => w end) as (_ & -> & _).
  destruct (audioRef row); reflexivity.
Qed.

Lemma cleanup_calls (row : Row) (w : World) :
  calls (cleanup row w) =
  calls w ++ match audioRef row with Some e => [CallPause e] | None => [] end
          ++ [CallUnregister (Track.id (track row))].
Proof.
  unfold cleanup.
  destruct (unregister_frame (Track.id (track row))
              match audioRef row with Some e => pause e w | None => w end) as (_ & _ & ->).
  destruct (audioRef row); simpl; [| reflexivity].
  rewrite <- app_assoc. reflexivity.
Qed.

Lemma playing_cleanup (row : Row) (w : World) (e' : nat) :
  playing (cleanup row w) e' =
  match audioRef row with
  | Some e => if decide (e = e') then false else playing w e'
  | None => playing w e'
  end.
Proof.
  unfold cleanup. rewrite playing_unregister.
  destruct (audioRef row); [apply playing_pause | reflexivity].
Qed.

(** The unmount of a row, whichever way React orders the detaching of
    the ref and the cleanup. *)

Lemma unmount_currentlyPlaying (r : nat) (attached : bool) (row : Row) (w : World) :
  currentlyPlaying (unmount r attached row w) =
  match currentlyPlaying w with
  | Some cur =>
      if bool_decide (Registration.id cur = Track.id (track row)) then None else Some cur
  | None => None
  end.
Proof.
  unfold unmount, remove_from_document. cbv zeta.
  transitivity (currentlyPlaying (cleanup (if attached then row else detach row) w)).
  - destruct (audioRef row); reflexivity.
  - rewrite cleanup_currentlyPlaying. destruct attached; reflexivity.
Qed.

Lemma unmount_rows (r : nat) (attached : bool) (row : Row) (w : World) :
  rows (unmount r attached row w) = delete r (rows w).
Proof.
  unfold unmount, remove_from_document. cbv zeta.
  transitivity (delete r (rows (cleanup (if attached then row else detach row) w))).
  - destruct (audioRef row); reflexivity.
  - rewrite cleanup_rows. reflexivity.
Qed.


Lemma playing_end_playback (e e' : nat) (w : World) :
  playing (end_playback e w) e' = if decide (e = e') then false else playing w e'.
Proof. exact (playing_pause e e' w). Qed.

Lemma playing_unmount (r : nat) (attached : bool) (row : Row) (w : World) (e' : nat) :
  playing (unmount r attached row w) e' =
  match audioRef row with
  | Some e => if decide (e = e') then false else playing w e'
  | None => playing w e'
  end.
Proof.
  unfold unmount, remove_from_document. cbv zeta.
  destruct (audioRef row) as [e |] eqn:He.
  - change (playing (end_playback e (cleanup (if attached then row else detach row) w)) e'
            = if decide (e = e') then false else playing w e').
    rewrite playing_end_playback, playing_cleanup.
    destruct (decide (e = e')) as [| Hne]; [reflexivity |].
    destruct attached; cbn [detach audioRef]; [| reflexivity].
    rewrite He, decide_False by assumption. reflexivity.
  - change (playing (cleanup (if attached then row else detach row) w) e' = playing w e').
    rewrite playing_cleanup.
    destruct attached; cbn [detach audioRef]; [rewrite He |]; reflexivity.
Qed.

End TrackRow.

(** ** Reachable worlds *)

Section Reachability.

Local Open Scope nat_scope.

Lemma heap_evolves_refl (h : gmap nat AudioElement) : heap_evolves h h.
Proof. intros e a H. eauto. Qed.

Lemma heap_evolves_trans (h1 h2 h3 : gmap nat AudioElement) :
  heap_evolves h1 h2 → heap_evolves h2 h3 → heap_evolves h1 h3.
Proof.
  intros H12 H23 e a H.
  destruct (H12 e a H) as (a2 & H2 & Hs2).
  destruct (H23 e a2 H2) as (a3 & H3 & Hs3).
  exists a3. split; [assumption | congruence].
Qed.

Lemma heap_evolves_alter (b : bool) (e : nat) (h : gmap nat AudioElement) :
  heap_evolves h (alter (set_paused b) e h).
Proof.
  intros e' a H. rewrite lookup_alter.
  destruct (decide (e = e')) as [-> |]; rewrite H; simpl; eauto.
Qed.

Lemma heap_evolves_insert (e : nat) (a : AudioElement) (h : gmap nat AudioElement) :
  h !! e = None → heap_evolves h (<[e:=a]> h).
Proof.
  intros Hnone e' a' H. exists a'. split; [| reflexivity].
  rewrite lookup_insert_ne; [assumption | congruence].
Qed.

Lemma lookup_alter_set_isPlaying (b : bool) (r r' : nat) (m : gmap nat Row) (row' : Row) :
  alter (set_isPlaying b) r m !! r' = Some row' →
  ∃ row, m !! r' = Some row ∧ track row = track row' ∧ audioRef row = audioRef row'.
Proof.
  rewrite lookup_alter.
  destruct (decide (r = r')) as [-> |]; [| eauto].
  destruct (m !! r') as [row |]; simpl; [| discriminate].
  intros [= <-]. eauto.
Qed.

Lemma lookup_alter_set_isPlaying_keep (b : bool) (r r' : nat) (m : gmap nat Row) (row : Row) :
  m !! r' = Some row →
  ∃ row', alter (set_isPlaying b) r m !! r' = Some row'
          ∧ track row' = track row ∧ audioRef row' = audioRef row.
Proof.
  intros H. rewrite lookup_alter.
  destruct (decide (r = r')) as [-> |]; rewrite H; simpl; eauto.
Qed.

(** Each primitive step keeps a world well formed. *)

Lemma well_formed_initial : well_formed initial.
Proof.
  split; simpl.
  - intros r row H. rewrite lookup_empty in H. discriminate.
  - discriminate.
  - discriminate.
  - intros e id [].
Qed.

Lemma well_formed_heap (f : gmap nat AudioElement → gmap nat AudioElement)
      (c : Call) (w : World) :
  (∀ h, heap_evolves h (f h)) →
  (∀ e id, c ≠ CallRegister e id) →
  well_formed w → well_formed (update_heap f (log c w)).
Proof.
  intros Hf Hc [Hrefs Hown Hreg Hcalls]. split; simpl.
  - intros r row Hr. destruct (Hrefs r row Hr) as (e & a & He & Ha & Hs).
    destruct (Hf (heap w) e a Ha) as (a' & Ha' & Hs').
    exists e, a'. repeat split; congruence.
  - assumption.
  - intros cur H. apply in_or_app. left. auto.
  - intros e id Hin. apply in_app_or in Hin as [Hin | [Heq | []]].
    + destruct (Hcalls e id Hin) as (a & Ha & Ht).
      destruct (Hf (heap w) e a Ha) as (a' & Ha' & Hs').
      exists a'. split; [assumption | congruence].
    + exfalso. exact (Hc _ _ Heq).
Qed.

Lemma well_formed_pause (e : nat) (w : World) : well_formed w → well_formed (pause e w).
Proof.
  apply well_formed_heap; [apply heap_evolves_alter | discriminate].
Qed.

Lemma well_formed_play (e : nat) (w : World) : well_formed w → well_formed (play e w).
Proof.
  apply well_formed_heap; [apply heap_evolves_alter | discriminate].
Qed.

Lemma well_formed_end_playback (e : nat) (w : World) :
  well_formed w → well_formed (end_playback e w).
Proof.
  intros [Hrefs Hown Hreg Hcalls]. split; simpl; try assumption.
  - intros r row Hr. destruct (Hrefs r row Hr) as (e' & a & He & Ha & Hs).
    destruct (heap_evolves_alter true e (heap w) e' a Ha) as (a' & Ha' & Hs').
    exists e', a'. repeat split; congruence.
  - intros e' id Hin. destruct (Hcalls e' id Hin) as (a & Ha & Ht).
    destruct (heap_evolves_alter true e (heap w) e' a Ha) as (a' & Ha' & Hs').
    exists a'. split; [assumption | congruence].
Qed.

Lemma well_formed_setIsPlaying (r : nat) (b : bool) (w : World) :
  well_formed w → well_formed (setIsPlaying r b w).
Proof.
  intros [Hrefs Hown Hreg Hcalls]. split; simpl.
  - intros r' row' Hr.
    apply lookup_alter_set_isPlaying in Hr as (row & Hr & Ht & Ha).
    rewrite <- Ht, <- Ha. eauto.
  - intros cur Hc. destruct (Hown cur Hc) as (r0 & row0 & Hr0 & Ha0 & Hi0).
    destruct (lookup_alter_set_isPlaying_keep b r r0 _ _ Hr0) as (row' & Hr' & Ht & Ha).
    exists r0, row'. rewrite Ht, Ha. auto.
  - intros cur H. apply in_or_app. left. auto.
  - intros e id Hin. apply in_app_or in Hin as [Hin | [Heq | []]]; [eauto | discriminate].
Qed.

Lemma well_formed_unregister (id : string) (w : World) :
  well_formed w → well_formed (unregister id w).
Proof.
  intros [Hrefs Hown Hreg Hcalls].
  destruct (unregister_frame id w) as (Hh & Hr & Hc).
  split.
  - rewrite Hh, Hr. assumption.
  - intros cur. rewrite unregister_currentlyPlaying, Hr.
    destruct (currentlyPlaying w) as [c |]; [| discriminate].
    destruct (bool_decide _); [discriminate |]. intros [= <-]. auto.
  - intros cur. rewrite unregister_currentlyPlaying, Hc.
    destruct (currentlyPlaying w) as [c |]; [| discriminate].
    destruct (bool_decide _); [discriminate |]. intros [= <-].
    apply in_or_app. left. auto.
  - intros e i. rewrite Hc, Hh. intros Hin.
    apply in_app_or in Hin as [Hin | [Heq | []]]; [eauto | discriminate].
Qed.

Lemma register_heap_evolves (e : nat) (id : string) (w : World) :
  heap_evolves (heap w) (heap (register e id w)).
Proof.
  rewrite register_heap.
  destruct (currentlyPlaying w) as [cur |]; [| apply heap_evolves_refl].
  destruct (bool_decide _); [apply heap_evolves_alter | apply heap_evolves_refl].
Qed.

Lemma well_formed_register (e : nat) (id : string) (w : World) (r : nat) (row : Row) :
  rows w !! r = Some row → audioRef row = Some e → Track.id (track row) = id →
  truthy (Track.previewUrl (track row)) = true →
  well_formed w → well_formed (register e id w).
Proof.
  intros Hrow He Hid Hp [Hrefs Hown Hreg Hcalls].
  pose proof (register_heap_evolves e id w) as Hev.
  split.
  - rewrite register_rows. intros r' row' Hr'.
    destruct (Hrefs r' row' Hr') as (e' & a & He' & Ha & Hs).
    destruct (Hev e' a Ha) as (a' & Ha' & Hs').
    exists e', a'. repeat split; congruence.
  - rewrite register_currentlyPlaying, register_rows. intros cur [= <-]; simpl.
    exists r, row. auto.
  - rewrite register_currentlyPlaying, register_calls. intros cur [= <-]; simpl.
    apply in_or_app. right. left. reflexivity.
  - rewrite register_calls. intros e' id' Hin.
    assert (Hold : In (CallRegister e' id') (calls w) ∨ e' = e).
    { apply in_app_or in Hin as [Hin | [Heq | Hin]]; [auto | right; congruence |].
      exfalso. unfold register_pauses in Hin.
      destruct (currentlyPlaying w); [| destruct Hin].
      destruct (bool_decide _); [| destruct Hin].
      destruct Hin as [Heq | []]. discriminate. }
    assert (Ha : ∃ a, heap w !! e' = Some a ∧ truthy (src a) = true).
    { destruct Hold as [Hin' | ->]; [eauto |].
      destruct (Hrefs r row Hrow) as (e0 & a & He0 & Ha & Hs).
      exists a. split; [congruence | rewrite Hs; assumption]. }
    destruct Ha as (a & Ha & Ht). destruct (Hev e' a Ha) as (a' & Ha' & Hs').
    exists a'. split; [assumption | congruence].
Qed.

Lemma well_formed_mount (r e : nat) (t : Track.t) (w : World) :
  rows w !! r = None → heap w !! e = None →
  well_formed w → well_formed (mount r e t w).
Proof.
  intros Hr He [Hrefs Hown Hreg Hcalls].
  pose proof (heap_evolves_insert e {| src := Track.previewUrl t; paused := true |}
                (heap w) He) as Hev.
  split; simpl.
  - intros r' row'. rewrite lookup_insert.
    destruct (decide (r = r')) as [-> |].
    + intros [= <-]; simpl. eexists e, _. rewrite lookup_insert_eq. eauto.
    + intros Hr'. destruct (Hrefs r' row' Hr') as (e' & a & He' & Ha & Hs).
      destruct (Hev e' a Ha) as (a' & Ha' & Hs').
      exists e', a'. repeat split; congruence.
  - intros cur Hc. destruct (Hown cur Hc) as (r0 & row0 & Hr0 & Hrest).
    exists r0, row0. split; [| assumption].
    rewrite lookup_insert_ne; [assumption | congruence].
  - assumption.
  - intros e' id Hin. destruct (Hcalls e' id Hin) as (a & Ha & Ht).
    destruct (Hev e' a Ha) as (a' & Ha' & Hs').
    exists a'. split; [assumption | congruence].
Qed.

Lemma well_formed_cleanup (row : Row) (w : World) :
  well_formed w → well_formed (cleanup row w).
Proof.
  intros Hw. unfold cleanup. apply well_formed_unregister.
  destruct (audioRef row); [apply well_formed_pause |]; assumption.
Qed.

Lemma well_formed_remove_from_document (row : Row) (w : World) :
  well_formed w → well_formed (remove_from_document row w).
Proof.
  intros Hw. unfold remove_from_document.
  destruct (audioRef row); [apply well_formed_end_playback |]; assumption.
Qed.

Lemma well_formed_unmount (r : nat) (attached : bool) (row : Row) (w : World) :
  rows w !! r = Some row →
  well_formed w → well_formed (unmount r attached row w).
Proof.
  intros Hrow Hw.
  pose proof (unmount_currentlyPlaying r attached row w) as Hcp.
  pose proof (unmount_rows r attached row w) as Hrows.
  unfold unmount in *. cbv zeta in *.
  set (seen := if attached then row else detach row) in *.
  pose proof (well_formed_remove_from_document row _ (well_formed_cleanup seen w Hw))
    as [Hrefs Hown Hreg Hcalls].
  assert (Hr' : rows (remove_from_document row (cleanup seen w)) = rows w).
  { unfold remove_from_document.
    destruct (audioRef row); [change (rows (cleanup seen w) = rows w) |];
      apply cleanup_rows. }
  split; cbn [update_rows heap rows currentlyPlaying calls]; try assumption.
  - intros r' row'. rewrite lookup_delete.
    destruct (decide (r = r')); [discriminate | eauto].
  - intros cur Hc. destruct (Hown cur Hc) as (r0 & row0 & Hr0 & Ha0 & Hi0).
    exists r0, row0. repeat split; try assumption.
    rewrite lookup_delete_ne; [assumption |].
    intros <-. rewrite Hr' in Hr0.
    assert (row0 = row) as -> by congruence.
    cbn [update_rows currentlyPlaying] in Hcp. rewrite Hcp in Hc.
    destruct (currentlyPlaying w) as [c |]; [| discriminate].
    destruct (bool_decide_reflect (Registration.id c = Track.id (track row)));
      [discriminate |].
    congruence.
Qed.

Lemma well_formed_togglePlay (r : nat) (row : Row) (w w' : World) :
  rows w !! r = Some row →
  togglePlay r row w = Some w' →
  well_formed w → well_formed w'.
Proof.
  intros Hrow Ht Hw. unfold togglePlay in Ht.
  destruct (truthy (Track.previewUrl (track row))) eqn:Hp; simpl in Ht;
    [| congruence].
  destruct (audioRef row) as [e |] eqn:He; [| discriminate].
  injection Ht as <-. apply well_formed_setIsPlaying.
  destruct (isPlaying row).
  - apply well_formed_unregister, well_formed_pause, Hw.
  - eapply well_formed_register; eauto using well_formed_play.
Qed.

Lemma well_formed_dispatch (ev : Event) (w w' : World) :
  dispatch ev w = Some w' → well_formed w → well_formed w'.
Proof.
  intros Hd Hw. destruct ev as [r e t | r | r | r | r | r attached]; simpl in Hd.
  - destruct (rows w !! r) eqn:Hr; [discriminate |].
    destruct (heap w !! e) eqn:He; [discriminate |].
    injection Hd as <-. apply well_formed_mount; assumption.
  - destruct (rows w !! r) as [row |] eqn:Hr; [| discriminate].
    destruct (rendersPreviewButton row); [| discriminate].
    eapply well_formed_togglePlay; eassumption.
  - destruct (rows w !! r) as [row |] eqn:Hr; [| discriminate].
    destruct (audioRef row) as [e |]; [| discriminate].
    destruct (playing w e); [| discriminate].
    injection Hd as <-. apply well_formed_setIsPlaying, well_formed_end_playback, Hw.
  - destruct (rows w !! r) as [row |] eqn:Hr; [| discriminate].
    injection Hd as <-. apply well_formed_setIsPlaying, Hw.
  - destruct (rows w !! r) as [row |] eqn:Hr; [| discriminate].
    injection Hd as <-. apply well_formed_cleanup, Hw.
  - destruct (rows w !! r) as [row |] eqn:Hr; [| discriminate].
    injection Hd as <-. eapply well_formed_unmount; eassumption.
Qed.

Lemma reachable_well_formed (w : World) : reachable w → well_formed w.
Proof.
  induction 1 as [| w ev w' _ IH Hd];
    [apply well_formed_initial | eapply well_formed_dispatch; eassumption].
Qed.

Lemma reachable_distinct_reachable (w : World) : reachable_distinct w → reachable w.
Proof.
  induction 1; [constructor | econstructor; eassumption].
Qed.

Lemma reachable_run (evs : list Event) (w w' : World) :
  reachable w → run evs w = Some w' → reachable w'.
Proof.
  revert w. induction evs as [| ev evs IH]; intros w Hw Hrun; simpl in Hrun.
  - congruence.
  - destruct (dispatch ev w) as [w1 |] eqn:Hd; [| discriminate].
    eapply IH; [| eassumption]. econstructor; eassumption.
Qed.

Lemma reachable_distinct_run (evs : list Event) (w w' : World) :
  reachable_distinct w → distinct_along evs w = true → run evs w = Some w' →
  reachable_distinct w'.
Proof.
  revert w. induction evs as [| ev evs IH]; intros w Hw Hdis Hrun;
    simpl in Hrun, Hdis.
  - congruence.
  - destruct (dispatch ev w) as [w1 |] eqn:Hd; [| discriminate].
    apply andb_prop in Hdis as [H1 H2]. apply bool_decide_eq_true in H1.
    eapply IH; [| eassumption | eassumption]. econstructor; eassumption.
Qed.

Lemma distinct_ids_lookup (w : World) (r1 r2 : nat) (row1 row2 : Row) :
  distinct_ids w →
  rows w !! r1 = Some row1 → rows w !! r2 = Some row2 →
  Track.id (track row1) = Track.id (track row2) → r1 = r2.
Proof.
  intros Hd H1 H2. exact (Hd r1 row1 H1 r2 row2 H2).
Qed.

Lemma distinct_ids_initial : distinct_ids initial.
Proof. unfold distinct_ids; simpl. apply map_Forall_empty. Qed.

(** With distinct identifiers, the registration of a row's identifier
    holds that row's own element. *)
Lemma owner_unique (w : World) (r : nat) (row : Row) (e : nat) (cur : Registration.t) :
  well_formed w → distinct_ids w →
  rows w !! r = Some row → audioRef row = Some e →
  currentlyPlaying w = Some cur →
  Registration.id cur = Track.id (track row) →
  Registration.element cur = e.
Proof.
  intros Hw Hd Hrow He Hc Hid.
  destruct (wf_owner w Hw cur Hc) as (r0 & row0 & Hr0 & Ha0 & Hi0).
  assert (r0 = r) as -> by (eapply distinct_ids_lookup; eauto; congruence).
  congruence.
Qed.

Lemma released_playing_is_registered (w w' : World) (r : nat) (row : Row) (e : nat) :
  well_formed w → distinct_ids w → playing_is_registered w →
  rows w !! r = Some row → audioRef row = Some e →
  (∀ e', playing w' e' = if decide (e = e') then false else playing w e') →
  currentlyPlaying w' =
    match currentlyPlaying w with
    | Some cur =>
        if bool_decide (Registration.id cur = Track.id (track row)) then None else Some cur
    | None => None
    end →
  playing_is_registered w'.
Proof.
  intros Hw Hd HJ Hrow He Hp Hc e' Hplay. rewrite Hp in Hplay.
  destruct (decide (e = e')) as [| Hne]; [discriminate |].
  destruct (HJ e' Hplay) as (id & Hcur). rewrite Hc, Hcur. exists id.
  rewrite bool_decide_eq_false_2; [reflexivity |]. simpl. intros Hid.
  apply Hne. symmetry.
  exact (owner_unique w r row e _ Hw Hd Hrow He Hcur Hid).
Qed.

Lemma acquired_playing_is_registered (w : World) (r : nat) (row : Row) (e : nat) :
  well_formed w → distinct_ids w → playing_is_registered w →
  rows w !! r = Some row → audioRef row = Some e →
  playing_is_registered
    (setIsPlaying r true (register e (Track.id (track row)) (play e w))).
Proof.
  intros Hw Hd HJ Hrow He e' Hplay.
  change (currentlyPlaying (setIsPlaying r true
            (register e (Track.id (track row)) (play e w))))
    with (Some {| Registration.element := e;
                  Registration.id := Track.id (track row) |}).
  change (playing (register e (Track.id (track row)) (play e w)) e' = true) in Hplay.
  destruct (decide (e = e')) as [<- | Hne]; [eauto |]. exfalso.
  rewrite playing_register in Hplay.
  change (currentlyPlaying (play e w)) with (currentlyPlaying w) in Hplay.
  assert (Hold : playing w e' = true ∧
                 ∀ cur, currentlyPlaying w = Some cur →
                        Registration.id cur = Track.id (track row)).
  { revert Hplay. rewrite playing_play, decide_False by assumption.
    destruct (currentlyPlaying w) as [cur |] eqn:Hc.
    - destruct (bool_decide_reflect (Registration.id cur ≠ Track.id (track row)))
        as [Hid | Hid].
      + destruct (decide (Registration.element cur = e')) as [Heq |]; [discriminate |].
        intros Hplay. destruct (HJ e' Hplay) as (id & Hcur).
        rewrite Hc in Hcur. injection Hcur as ->. simpl in *. congruence.
      + intros Hplay. split; [assumption |]. intros c [= <-].
        destruct (decide (Registration.id cur = Track.id (track row))); tauto.
    - intros Hplay. destruct (HJ e' Hplay) as (id & Hcur). congruence. }
  destruct Hold as [Hp Hsame]. destruct (HJ e' Hp) as (id & Hcur).
  apply Hne. symmetry.
  exact (owner_unique w r row e _ Hw Hd Hrow He Hcur (Hsame _ Hcur)).
Qed.

Lemma dispatch_playing_is_registered (ev : Event) (w w' : World) :
  well_formed w → distinct_ids w → playing_is_registered w →
  dispatch ev w = Some w' → playing_is_registered w'.
Proof.
  intros Hw Hd HJ Hdis.
  destruct ev as [r e t | r | r | r | r | r attached]; simpl in Hdis.
  - destruct (rows w !! r) eqn:Hr; [discriminate |].
    destruct (heap w !! e) eqn:He; [discriminate |].
    injection Hdis as <-. intros e' Hplay. apply HJ.
    unfold playing in *; simpl in Hplay. rewrite lookup_insert in Hplay.
    destruct (decide (e = e')); [discriminate | assumption].
  - destruct (rows w !! r) as [row |] eqn:Hr; [| discriminate].
    destruct (rendersPreviewButton row) eqn:Hb; [| discriminate].
    destruct (wf_refs w Hw r row Hr) as (e & a & He & _).
    destruct (isPlaying row) eqn:Hi.
    + rewrite (togglePlay_playing w r row e He Hb Hi) in Hdis. injection Hdis as <-.
      eapply released_playing_is_registered; try eassumption.
      * intros e'.
        change (playing (unregister (Track.id (track row)) (pause e w)) e'
                = if decide (e = e') then false else playing w e').
        rewrite playing_unregister. apply playing_pause.
      * change (currentlyPlaying (unregister (Track.id (track row)) (pause e w)) = 
                match currentlyPlaying (pause e w) with
                | Some cur =>
                    if bool_decide (Registration.id cur = Track.id (track row))
                    then None else Some cur
                | None => None
                end).
        apply unregister_currentlyPlaying.
    + rewrite (togglePlay_idle w r row e He Hb Hi) in Hdis. injection Hdis as <-.
      apply acquired_playing_is_registered; assumption.
  - destruct (rows w !! r) as [row |] eqn:Hr; [| discriminate].
    destruct (audioRef row) as [e |]; [| discriminate].
    destruct (playing w e); [| discriminate].
    injection Hdis as <-. intros e' Hplay. apply HJ.
    change (playing (pause e w) e' = true) in Hplay.
    rewrite playing_pause in Hplay.
    destruct (decide (e = e')); [discriminate | assumption].
  - destruct (rows w !! r) as [row |] eqn:Hr; [| discriminate].
    injection Hdis as <-. exact HJ.
  - destruct (rows w !! r) as [row |] eqn:Hr; [| discriminate].
    injection Hdis as <-.
    destruct (wf_refs w Hw r row Hr) as (e & a & He & _).
    eapply released_playing_is_registered; try eassumption.
    + intros e'. rewrite playing_cleanup, He. reflexivity.
    + apply cleanup_currentlyPlaying.
  - destruct (rows w !! r) as [row |] eqn:Hr; [| discriminate].
    injection Hdis as <-.
    destruct (wf_refs w Hw r row Hr) as (e & a & He & _).
    eapply released_playing_is_registered; try eassumption.
    + intros e'. rewrite playing_unmount, He. reflexivity.
    + apply unmount_currentlyPlaying.
Qed.

Lemma reachable_distinct_invariant (w : World) :
  reachable_distinct w → distinct_ids w ∧ well_formed w ∧ playing_is_registered w.
Proof.
  induction 1 as [| w ev w' Hr (Hd & Hw & HJ) Hdis Hd'].
  - split; [apply distinct_ids_initial |]. split; [apply well_formed_initial |].
    intros e H. discriminate.
  - split; [assumption |]. split.
    + eapply well_formed_dispatch; eassumption.
    + eapply dispatch_playing_is_registered; eassumption.
Qed.

Lemma playing_is_registered_at_most_one (w : World) :
  playing_is_registered w → at_most_one_playing w.
Proof.
  intros HJ e1 e2 H1 H2.
  destruct (HJ e1 H1) as (id1 & Hc1). destruct (HJ e2 H2) as (id2 & Hc2).
  congruence.
Qed.








(** C2: the guarantee that at most one audio element plays fails when
    a track is shown by two rows (in the search results and in the
    playlist).  In the first run [register] is called with the distinct
    identifiers 1 and 3: the first row is started, the second row, which
    shows the same track, is destroyed, which releases the registration
    of the identifier they share, and a third row is started;
    [register] finds the slot empty, pauses nothing, and the elements of
    the first and the third row both play.  The second run consists of
    clicks only, each [register] call carrying another identifier than
    the one before: the second row is started and then silenced by the
    third, whose preview is stopped again; the first row is started; a
    click on the second row, whose flag still reads [Playing], releases
    the identifier it shares with the first; and the third row is
    started while the first still plays. *)
Theorem two_previews_play_at_once :
  (∀ attached : bool,
     ∃ w, run [Mount 0 0 track1; Mount 1 1 track1; Mount 2 2 track3;
               Click 0; Unmount 1 attached; Click 2] initial = Some w
          ∧ registered_ids (calls w) = ["1"; "3"]
          ∧ playing w 0 = true ∧ playing w 2 = true
          ∧ currentlyPlaying w
            = Some {| Registration.element := 2; Registration.id := "3" |}
          ∧ ¬ at_most_one_playing w)
  ∧ (∃ w, run [Mount 0 0 track1; Mount 1 1 track1; Mount 2 2 track3;
               Click 1; Click 2; Click 2; Click 0; Click 1; Click 2] initial = Some w
          ∧ registered_ids (calls w) = ["1"; "3"; "1"; "3"]
          ∧ playing w 0 = true ∧ playing w 2 = true
          ∧ currentlyPlaying w
            = Some {| Registration.element := 2; Registration.id := "3" |}
          ∧ ¬ at_most_one_playing w).
Proof.
  split; [intros attached; destruct attached |].
  all: eexists; split; [vm_compute; reflexivity |].
  all: split; [vm_compute; reflexivity |].
  all: split; [vm_compute; reflexivity |].
  all: split; [vm_compute; reflexivity |].
  all: split; [vm_compute; reflexivity |].
  all: intros H; assert (0 = 2) as Heq by (apply H; vm_compute; reflexivity).
  all: discriminate Heq.
Qed.

(** X24: after any run of [register] calls, one more [register el id]
    leaves exactly the registration of [el] and [id] in the slot, and
    when the identifier registered before differs from [id] its element
    has been paused; and in every world the application reaches while
    the rows on screen have distinct identifiers, at most one audio
    element is playing, and it is the registered one (whichever way the
    ref is detached when a row is destroyed). *)
Theorem mutual_exclusion :
  (∀ (l : list (nat * string)) (w : World) (el : nat) (id : string),
     let w0 := register_all l w in
     let w' := register el id w0 in
     currentlyPlaying w'
     = Some {| Registration.element := el; Registration.id := id |}
     ∧ ∀ cur, currentlyPlaying w0 = Some cur → Registration.id cur ≠ id →
              playing w' (Registration.element cur) = false
              ∧ In (CallPause (Registration.element cur)) (calls_since w0 w'))
  ∧ (∀ w, reachable_distinct w → at_most_one_playing w ∧ playing_is_registered w).
Proof.
  split.
  - intros l w el id w0 w'. split; [apply register_currentlyPlaying |].
    intros cur Hc Hne. subst w'. split.
    + rewrite playing_register, Hc, bool_decide_eq_true_2, decide_True; auto.
    + erewrite calls_since_app by apply register_calls.
      unfold register_pauses. rewrite Hc, bool_decide_eq_true_2 by assumption.
      simpl. auto.
  - intros w Hr. destruct (reachable_distinct_invariant w Hr) as (_ & _ & HJ).
    split; [apply playing_is_registered_at_most_one |]; assumption.
Qed.

Lemma mutual_exclusion_witness :
  run (three_rows ++ [Click 0; Click 2]) initial = Some played_1_then_3
  ∧ reachable_distinct played_1_then_3
  ∧ at_most_one_playing played_1_then_3
  ∧ playing played_1_then_3 2 = true ∧ playing played_1_then_3 0 = false
  ∧ currentlyPlaying (register 2 "3" (register_all [(0, "1")] initial))
    = Some {| Registration.element := 2; Registration.id := "3" |}.
Proof.
  destruct mutual_exclusion as [Hreg Hreach].
  split; [reflexivity |].
  assert (Hr : reachable_distinct played_1_then_3).
  { apply (reachable_distinct_run (three_rows ++ [Click 0; Click 2]) initial);
      [constructor | vm_compute; reflexivity | reflexivity]. }
  split; [exact Hr |]. split; [apply Hreach, Hr |].
  split; [reflexivity |]. split; [reflexivity |].
  apply (Hreg [(0, "1")] initial 2 "3").
Defined.

(** C8: in every reachable world, a mounted row whose track has no
    preview URL renders no preview button, cannot be clicked, and its
    [togglePlay] returns at once without any call; [register] was never
    called with its audio element, which is never the registered one. *)
Theorem no_preview_never_registers (w : World) (r : nat) (row : Row) :
  reachable w →
  rows w !! r = Some row →
  Track.previewUrl (track row) = None →
  rendersPreviewButton row = false
  ∧ dispatch (Click r) w = None
  ∧ togglePlay r row w = Some w
  ∧ ∀ e, audioRef row = Some e →
         (∀ id, ¬ In (CallRegister e id) (calls w))
         ∧ (∀ id, currentlyPlaying w
                  ≠ Some {| Registration.element := e; Registration.id := id |}).
Proof.
  intros Hr Hrow Hnone.
  pose proof (reachable_well_formed w Hr) as Hw.
  assert (Hb : rendersPreviewButton row = false)
    by (unfold rendersPreviewButton; rewrite Hnone; reflexivity).
  split; [exact Hb |].
  split; [simpl; rewrite Hrow, Hb; reflexivity |].
  split; [unfold togglePlay; rewrite Hnone; reflexivity |].
  intros e He.
  assert (Hcalls : ∀ id, ¬ In (CallRegister e id) (calls w)).
  { intros id Hin. destruct (wf_calls w Hw e id Hin) as (a & Ha & Ht).
    destruct (wf_refs w Hw r row Hrow) as (e0 & a0 & He0 & Ha0 & Hs0).
    assert (a0 = a) as -> by congruence.
    rewrite Hs0, Hnone in Ht. discriminate. }
  split; [exact Hcalls |].
  intros id Hc. apply (Hcalls id). exact (wf_registered w Hw _ Hc).
Qed.

Lemma no_preview_never_registers_witness :
  reachable played_1_then_3
  ∧ rows played_1_then_3 !! 1 = Some (mkRow track2 false (Some 1))
  ∧ dispatch (Click 1) played_1_then_3 = None
  ∧ (∀ id, ¬ In (CallRegister 1 id) (calls played_1_then_3)).
Proof.
  assert (Hr : reachable played_1_then_3).
  { apply (reachable_run (three_rows ++ [Click 0; Click 2]) initial);
      [constructor | reflexivity]. }
  destruct (no_preview_never_registers played_1_then_3 1 (mkRow track2 false (Some 1))
              Hr eq_refl eq_refl) as (_ & Hclick & _ & Hnever).
  split; [exact Hr |]. split; [reflexivity |].
  split; [exact Hclick |]. apply (Hnever 1 eq_refl).
Defined.

(** The hypothesis of distinct identifiers cannot be dropped: when the
    same track is shown by two rows (once in the search results and once
    in the playlist), [register] sees its own identifier in the slot,
    pauses nothing, and both elements play. *)
Remark same_track_twice_both_play :
  ∃ w, run [Mount 0 0 track1; Mount 1 1 track1; Click 0; Click 1] initial = Some w
       ∧ playing w 0 = true ∧ playing w 1 = true
       ∧ ¬ distinct_ids w.
Proof.
  eexists. split; [reflexivity |]. split; [reflexivity |]. split; [reflexivity |].
  intros Hd.
  discriminate (distinct_ids_lookup _ 0 1 _ _ Hd eq_refl eq_refl eq_refl).
Qed.

End Reachability.

(** * Further properties of the catalog client *)

Section SearchResults.

Lemma map_throwing_None {A B : Type} (f : A → option B) (l : list A) :
  map_throwing f l = None ↔ Exists (λ x, f x = None) l.
Proof.
  induction l as [| x l IH]; simpl.
  - split; [discriminate | intros H; inversion H].
  - destruct (f x) as [y |] eqn:Hx.
    + destruct (map_throwing f l) as [ys |].
      * split; [discriminate |]. intros H. inversion H as [? ? Hn | ? ? Hn]; subst.
        -- congruence.
        -- apply IH in Hn. discriminate.
      * split; [| reflexivity]. intros _. apply Exists_cons_tl, IH. reflexivity.
    + split; [| reflexivity]. intros _. apply Exists_cons_hd. assumption.
Qed.


Lemma normalize_item_None (item : option Api.track) :
  normalize_item item = None ↔ item_throws item.
Proof.
  unfold normalize_item, item_throws, normalize_track.
  destruct item as [a |]; [| tauto].
  destruct (Api.artists a) as [[| [first |] rest] |]; try tauto.
  destruct (Api.track_album a); split; congruence.
Qed.




(** X2: The [search] of spotifyAuth.js rejects exactly when the callback
    throws on some entry of [items]: an entry that is [null], that has
    no artist array, an empty one or one whose first entry is [null], or
    that has no album.  On such a response the [search] of Spotify.js
    resolves to the empty array, dropping every other result as well. *)
Theorem search_fails_on_throwing_item (resp : Api.response) :
  (SpotifyAuth.search (Some resp) = Rejected
   ↔ ∃ p its, Api.tracks resp = Some p ∧ Api.items p = Some its
              ∧ Exists item_throws its)
  ∧ (SpotifyAuth.search (Some resp) = Rejected → Spotify.search resp = Fulfilled []).
Proof.
  unfold SpotifyAuth.search, Spotify.search.
  destruct (Api.tracks resp) as [p |].
  2: { split; [split; [discriminate | intros (? & ? & ? & _); discriminate]
               | discriminate]. }
  destruct (Api.items p) as [its |] eqn:Hi.
  2: { split; [split; [discriminate | intros (? & ? & [= <-] & ? & _); congruence]
               | discriminate]. }
  destruct (map_throwing normalize_item its) as [ts |] eqn:Hm.
  - split; [split; [discriminate |] | discriminate].
    intros (p' & its' & [= <-] & Hi' & Hex). exfalso.
    assert (its' = its) as -> by congruence.
    assert (Hnone : map_throwing normalize_item its = None).
    { apply map_throwing_None. eapply Exists_impl; [exact Hex |].
      intros a Ha. apply normalize_item_None. assumption. }
    congruence.
  - split; [split; [| reflexivity] | reflexivity].
    intros _. exists p, its. split; [reflexivity |]. split; [exact Hi |].
    apply map_throwing_None in Hm. eapply Exists_impl; [exact Hm |].
    intros a Ha. apply normalize_item_None. assumption.
Qed.

Lemma search_fails_on_throwing_item_witness :
  let no_album := {| Api.id := "9"; Api.name := "Nine";
                     Api.artists := Some [ Some {| Api.artist_name := "A" |} ];
                     Api.track_album := None;
                     Api.uri := "spotify:track:9"; Api.duration_ms := 1000;
                     Api.preview_url := None |} in
  let resp := {| Api.tracks := Some {| Api.items := Some [Some sample_item; Some no_album] |} |} in
  let resp' := {| Api.tracks := Some {| Api.items := Some [None; Some sample_item] |} |} in
  SpotifyAuth.search (Some resp) = Rejected ∧ Spotify.search resp = Fulfilled []
  ∧ SpotifyAuth.search (Some resp') = Rejected ∧ Spotify.search resp' = Fulfilled [].
Proof.
  intros no_album resp resp'.
  destruct (search_fails_on_throwing_item resp) as [[_ Hrej] Hdrop].
  destruct (search_fails_on_throwing_item resp') as [[_ Hrej'] Hdrop'].
  assert (H : SpotifyAuth.search (Some resp) = Rejected).
  { apply Hrej. eexists _, _. split; [reflexivity |]. split; [reflexivity |].
    apply Exists_cons_tl, Exists_cons_hd. reflexivity. }
  assert (H' : SpotifyAuth.search (Some resp') = Rejected).
  { apply Hrej'. eexists _, _. split; [reflexivity |]. split; [reflexivity |].
    apply Exists_cons_hd. exact I. }
  split; [exact H |]. split; [exact (Hdrop H) |].
  split; [exact H' | exact (Hdrop' H')].
Defined.

End SearchResults.

(** * Further properties of formatDuration *)

Section DurationStrings.

Local Open Scope Z_scope.

Lemma string_length_app (s t : string) :
  String.length (s +:+ t) = (String.length s + String.length t)%nat.
Proof.
  induction s as [| c s IH]; [reflexivity |].
  change (S (String.length (s +:+ t)) = S (String.length s + String.length t)).
  rewrite IH. reflexivity.
Qed.

Lemma string_app_inj_suffix (s1 s2 t1 t2 : string) :
  s1 +:+ t1 = s2 +:+ t2 → String.length t1 = String.length t2 →
  s1 = s2 ∧ t1 = t2.
Proof.
  revert s2. induction s1 as [| c1 s1 IH]; intros [| c2 s2] Heq Hlen;
    cbv [String.append] in Heq; fold String.append in Heq.
  - auto.
  - exfalso. rewrite Heq in Hlen. simpl in Hlen. rewrite string_length_app in Hlen. lia.
  - exfalso. rewrite <- Heq in Hlen. simpl in Hlen. rewrite string_length_app in Hlen. lia.
  - injection Heq as -> Heq. destruct (IH s2 Heq Hlen) as [-> ->]. auto.
Qed.

Lemma two_digits_inj_table :
  Forall (λ x, Forall (λ y, two_digits x = two_digits y → x = y) (seqZ 0 60)) (seqZ 0 60).
Proof.
  refine (bool_decide_unpack _ _). vm_compute. exact I.
Qed.

Lemma two_digits_inj (x y : Z) :
  0 ≤ x ≤ 59 → 0 ≤ y ≤ 59 → two_digits x = two_digits y → x = y.
Proof.
  intros Hx Hy. pose proof two_digits_inj_table as Ht.
  rewrite Forall_forall in Ht.
  assert (Hx' : x ∈ seqZ 0 60) by (apply elem_of_seqZ; lia).
  specialize (Ht x Hx'). rewrite Forall_forall in Ht.
  apply Ht. apply elem_of_seqZ. lia.
Qed.

Lemma formatDuration_by_seconds (ms : Z) :
  0 ≤ ms →
  formatDuration ms
  = pretty ((ms `div` 1000) `div` 60) +:+ ":" +:+ two_digits ((ms `div` 1000) `mod` 60).
Proof.
  intros Hms. rewrite formatDuration_unfold, Z.rem_mod_nonneg by lia.
  assert (Hm : ms `div` 60000 = (ms `div` 1000) `div` 60)
    by (Z.div_mod_to_equations; lia).
  assert (Hs : (ms `mod` 60000) `div` 1000 = (ms `div` 1000) `mod` 60)
    by (Z.div_mod_to_equations; lia).
  rewrite Hm, Hs. reflexivity.
Qed.

Lemma same_second_strings (a b : Z) :
  0 ≤ a → 0 ≤ b →
  (formatDuration a = formatDuration b ↔ a `div` 1000 = b `div` 1000).
Proof.
  intros Ha Hb. rewrite !formatDuration_by_seconds by assumption.
  assert (Hqa : 0 ≤ a `div` 1000) by (apply Z.div_pos; lia).
  assert (Hqb : 0 ≤ b `div` 1000) by (apply Z.div_pos; lia).
  set (qa := a `div` 1000) in *. set (qb := b `div` 1000) in *.
  split; [| intros ->; reflexivity].
  intros Heq.
  pose proof (Z.mod_pos_bound qa 60 ltac:(lia)) as Hma.
  pose proof (Z.mod_pos_bound qb 60 ltac:(lia)) as Hmb.
  destruct (two_digits_shape (qa `mod` 60) ltac:(lia)) as [_ Hla].
  destruct (two_digits_shape (qb `mod` 60) ltac:(lia)) as [_ Hlb].
  apply string_app_inj_suffix in Heq as [Hm Hs];
    [| rewrite !string_length_app, Hla, Hlb; reflexivity].
  apply (inj pretty) in Hm.
  apply (inj (String.append ":")) in Hs. apply two_digits_inj in Hs; [| lia | lia].
  rewrite (Z.div_mod qa 60), (Z.div_mod qb 60) by lia. congruence.
Qed.

(** X3: Two non-negative durations below [2^53] are shown by the same
    string exactly when they agree to the whole second: milliseconds are
    cut off, never rounded, and the string determines the number of
    seconds.  This holds of the function on doubles as of the function
    on integers. *)
Theorem formatDuration_same_second (a b : Z) :
  0 ≤ a < 2 ^ 53 → 0 ≤ b < 2 ^ 53 →
  (formatDuration_double a = formatDuration_double b ↔ a `div` 1000 = b `div` 1000)
  ∧ (formatDuration a = formatDuration b ↔ a `div` 1000 = b `div` 1000).
Proof.
  intros Ha Hb.
  pose proof (same_second_strings a b ltac:(lia) ltac:(lia)) as HZ.
  split; [| exact HZ].
  rewrite !formatDuration_double_exact by assumption.
  rewrite <- HZ. split; [intros [= ->]; reflexivity | intros ->; reflexivity].
Qed.

Lemma formatDuration_same_second_witness :
  0 ≤ 185000 < 2 ^ 53 ∧ 0 ≤ 185999 < 2 ^ 53
  ∧ formatDuration_double 185000 = formatDuration_double 185999
  ∧ formatDuration 185999 ≠ formatDuration 186000.
Proof.
  assert (B1 : 0 ≤ 185000 < 2 ^ 53) by (change (2 ^ 53) with 9007199254740992; lia).
  assert (B2 : 0 ≤ 185999 < 2 ^ 53) by (change (2 ^ 53) with 9007199254740992; lia).
  assert (B3 : 0 ≤ 186000 < 2 ^ 53) by (change (2 ^ 53) with 9007199254740992; lia).
  split; [exact B1 |]. split; [exact B2 |]. split.
  - apply (formatDuration_same_second 185000 185999 B1 B2). reflexivity.
  - intros H. apply (formatDuration_same_second 185999 186000 B2 B3) in H.
    vm_compute in H. discriminate.
Defined.

End DurationStrings.

(** * Further properties of the playback design *)

Section PlaybackInvariants.

Local Open Scope nat_scope.

(** X4: In every reachable world the registration, if any, names the audio
    element and the identifier of a row that is still mounted and whose
    track has a preview: the slot never points to a destroyed row. *)
Theorem registration_belongs_to_mounted_row (w : World) (cur : Registration.t) :
  reachable w → currentlyPlaying w = Some cur →
  ∃ r row, rows w !! r = Some row
           ∧ audioRef row = Some (Registration.element cur)
           ∧ Track.id (track row) = Registration.id cur
           ∧ truthy (Track.previewUrl (track row)) = true
           ∧ is_Some (heap w !! Registration.element cur).
Proof.
  intros Hr Hc. pose proof (reachable_well_formed w Hr) as Hw.
  destruct (wf_owner w Hw cur Hc) as (r & row & Hrow & He & Hid).
  exists r, row. repeat split; try assumption.
  - destruct (wf_calls w Hw _ _ (wf_registered w Hw cur Hc)) as (a & Ha & Ht).
    destruct (wf_refs w Hw r row Hrow) as (e0 & a0 & He0 & Ha0 & Hs0).
    assert (a0 = a) as -> by congruence. congruence.
  - destruct (wf_calls w Hw _ _ (wf_registered w Hw cur Hc)) as (a & Ha & Ht). eauto.
Qed.

Lemma registration_belongs_to_mounted_row_witness :
  reachable played_1_then_3
  ∧ currentlyPlaying played_1_then_3
    = Some {| Registration.element := 2; Registration.id := "3" |}
  ∧ ∃ r row, rows played_1_then_3 !! r = Some row ∧ audioRef row = Some 2.
Proof.
  assert (Hr : reachable played_1_then_3).
  { apply (reachable_run (three_rows ++ [Click 0; Click 2]) initial);
      [constructor | reflexivity]. }
  destruct (registration_belongs_to_mounted_row played_1_then_3 _ Hr eq_refl)
    as (r & row & Hrow & He & _).
  split; [exact Hr |]. split; [reflexivity |]. exists r, row. auto.
Defined.






End PlaybackInvariants.

Section PlaybackSteps.

Local Open Scope nat_scope.

(** X6: Clicking the preview button of an idle row and clicking it again
    leaves the row idle, its audio element paused and the slot empty,
    whatever was registered before the first click. *)
Theorem toggle_on_then_off (w : World) (r : nat) (row : Row) (e : nat) :
  rows w !! r = Some row → audioRef row = Some e →
  rendersPreviewButton row = true → isPlaying row = false →
  ∃ w1 w2, dispatch (Click r) w = Some w1
           ∧ row_state w1 r = Some Playing
           ∧ currentlyPlaying w1
             = Some {| Registration.element := e;
                       Registration.id := Track.id (track row) |}
           ∧ dispatch (Click r) w1 = Some w2
           ∧ row_state w2 r = Some Idle
           ∧ playing w2 e = false
           ∧ currentlyPlaying w2 = None.
Proof.
  intros Hrow He Hb Hi.
  set (w1 := setIsPlaying r true (register e (Track.id (track row)) (play e w))).
  set (row1 := set_isPlaying true row).
  assert (Hrow1 : rows w1 !! r = Some row1).
  { subst w1. destruct (setIsPlaying_frame r true
      (register e (Track.id (track row)) (play e w))) as (_ & _ & -> & _).
    rewrite register_rows. change (rows (play e w)) with (rows w).
    rewrite lookup_alter_eq, Hrow. reflexivity. }
  set (w2 := setIsPlaying r false (unregister (Track.id (track row1)) (pause e w1))).
  assert (Hrow2 : rows w2 !! r = Some (set_isPlaying false row1)).
  { subst w2. destruct (setIsPlaying_frame r false
      (unregister (Track.id (track row1)) (pause e w1))) as (_ & _ & -> & _).
    destruct (unregister_frame (Track.id (track row1)) (pause e w1)) as (_ & -> & _).
    change (rows (pause e w1)) with (rows w1).
    rewrite lookup_alter_eq, Hrow1. reflexivity. }
  exists w1, w2.
  split; [unfold dispatch; rewrite Hrow, Hb; apply togglePlay_idle; assumption |].
  split; [unfold row_state; rewrite Hrow1; reflexivity |].
  split; [reflexivity |].
  split.
  { unfold dispatch. rewrite Hrow1.
    change (rendersPreviewButton row1) with (rendersPreviewButton row). rewrite Hb.
    apply togglePlay_playing; [assumption | exact Hb | reflexivity]. }
  split; [unfold row_state; rewrite Hrow2; reflexivity |].
  split.
  - change (playing (unregister (Track.id (track row1)) (pause e w1)) e = false).
    rewrite playing_unregister, playing_pause, decide_True; reflexivity.
  - change (currentlyPlaying (unregister (Track.id (track row)) (pause e w1)) = None).
    rewrite unregister_currentlyPlaying.
    change (currentlyPlaying (pause e w1))
      with (Some {| Registration.element := e;
                    Registration.id := Track.id (track row) |}).
    cbv beta iota. rewrite bool_decide_eq_true_2; reflexivity.
Qed.

Lemma toggle_on_then_off_witness :
  let w := mount 0 0 track1 initial in
  ∃ w1 w2, dispatch (Click 0) w = Some w1
           ∧ dispatch (Click 0) w1 = Some w2
           ∧ playing w2 0 = false
           ∧ currentlyPlaying w2 = None.
Proof.
  intros w.
  destruct (toggle_on_then_off w 0 (mkRow track1 false (Some 0)) 0
              eq_refl eq_refl eq_refl eq_refl)
    as (w1 & w2 & H1 & _ & _ & H2 & _ & Hp & Hc).
  exists w1, w2. auto.
Defined.

(** X7: The effect cleanup pauses and releases but never writes the flag:
    when the effect of a playing row whose track identifier is the
    registered one is re-run, the row stays mounted and still reports
    [Playing], while its audio element is paused and the slot is
    empty. *)
Theorem effect_rerun_keeps_flag (w : World) (r : nat) (row : Row) (e : nat) :
  rows w !! r = Some row → audioRef row = Some e →
  isPlaying row = true →
  (∃ cur, currentlyPlaying w = Some cur ∧ Registration.id cur = Track.id (track row)) →
  ∃ w', dispatch (DepsChanged r) w = Some w'
        ∧ rows w' = rows w
        ∧ row_state w' r = Some Playing
        ∧ playing w' e = false
        ∧ currentlyPlaying w' = None
        ∧ calls_since w w' = [CallPause e; CallUnregister (Track.id (track row))].
Proof.
  intros Hrow He Hi (cur & Hc & Hid). exists (cleanup row w).
  split; [unfold dispatch; rewrite Hrow; reflexivity |].
  split; [apply cleanup_rows |].
  split; [unfold row_state; rewrite cleanup_rows, Hrow, Hi; reflexivity |].
  split; [rewrite playing_cleanup, He, decide_True; reflexivity |].
  split.
  - rewrite cleanup_currentlyPlaying, Hc, bool_decide_eq_true_2; auto.
  - apply calls_since_app. rewrite cleanup_calls, He. reflexivity.
Qed.

Lemma effect_rerun_keeps_flag_witness :
  ∃ w', dispatch (DepsChanged 2) played_1_then_3 = Some w'
        ∧ row_state w' 2 = Some Playing
        ∧ playing played_1_then_3 2 = true
        ∧ playing w' 2 = false
        ∧ currentlyPlaying w' = None.
Proof.
  destruct (effect_rerun_keeps_flag played_1_then_3 2 (mkRow track3 true (Some 2)) 2
              eq_refl eq_refl eq_refl)
    as (w' & Hd & _ & Hs & Hp & Hc & _).
  - eexists. split; reflexivity.
  - exists w'. repeat split; assumption || reflexivity.
Defined.

(** X8: How one event can change the slot: mounting a row and the media
    events leave it as it is; the cleanup (effect re-run or unmount) can
    only empty it; and a new registration is only installed by a click on
    the preview button of an idle row, for that row's own element and
    track identifier. *)
Theorem slot_changes_only_by_own_click (ev : Event) (w w' : World) :
  dispatch ev w = Some w' →
  match ev with
  | Mount _ _ _ | Ended _ | Error _ => currentlyPlaying w' = currentlyPlaying w
  | DepsChanged _ | Unmount _ _ =>
      currentlyPlaying w' = currentlyPlaying w ∨ currentlyPlaying w' = None
  | Click r =>
      ∃ row e, rows w !! r = Some row ∧ audioRef row = Some e
               ∧ truthy (Track.previewUrl (track row)) = true
               ∧ if isPlaying row
                 then currentlyPlaying w' = currentlyPlaying w
                      ∨ currentlyPlaying w' = None
                 else currentlyPlaying w'
                      = Some {| Registration.element := e;
                                Registration.id := Track.id (track row) |}
  end.
Proof.
  assert (Hclean : ∀ row, currentlyPlaying (cleanup row w) = currentlyPlaying w
                          ∨ currentlyPlaying (cleanup row w) = None).
  { intros row. rewrite cleanup_currentlyPlaying.
    destruct (currentlyPlaying w); [| auto]. destruct (bool_decide _); auto. }
  intros Hdis. destruct ev as [r e t | r | r | r | r | r attached]; unfold dispatch in Hdis.
  - destruct (rows w !! r); [discriminate |].
    destruct (heap w !! e); [discriminate |]. injection Hdis as <-. reflexivity.
  - destruct (rows w !! r) as [row |] eqn:Hr; [| discriminate].
    destruct (rendersPreviewButton row) eqn:Hb; [| discriminate].
    unfold togglePlay in Hdis. unfold rendersPreviewButton in Hb.
    rewrite Hb in Hdis. simpl in Hdis.
    destruct (audioRef row) as [e |] eqn:He; [| discriminate].
    injection Hdis as <-. exists row, e. repeat split; try assumption.
    destruct (isPlaying row).
    + change (currentlyPlaying (unregister (Track.id (track row)) (pause e w))
              = currentlyPlaying (pause e w)
              ∨ currentlyPlaying (unregister (Track.id (track row)) (pause e w)) = None).
      rewrite unregister_currentlyPlaying.
      destruct (currentlyPlaying (pause e w)); [| auto]. destruct (bool_decide _); auto.
    + reflexivity.
  - destruct (rows w !! r) as [row |]; [| discriminate].
    destruct (audioRef row) as [e |]; [| discriminate].
    destruct (playing w e); [| discriminate]. injection Hdis as <-. reflexivity.
  - destruct (rows w !! r) as [row |]; [| discriminate].
    injection Hdis as <-. reflexivity.
  - destruct (rows w !! r) as [row |]; [| discriminate].
    injection Hdis as <-. apply Hclean.
  - destruct (rows w !! r) as [row |]; [| discriminate].
    injection Hdis as <-. rewrite unmount_currentlyPlaying.
    destruct (currentlyPlaying w); [| auto]. destruct (bool_decide _); auto.
Qed.

Lemma slot_changes_only_by_own_click_witness :
  ∃ w w', run (three_rows ++ [Click 0]) initial = Some w
          ∧ dispatch (Ended 0) w = Some w'
          ∧ currentlyPlaying w' = currentlyPlaying w.
Proof.
  eexists _, _. split; [reflexivity |].
  split; [reflexivity |].
  refine (slot_changes_only_by_own_click (Ended 0) _ _ _). reflexivity.
Defined.

End PlaybackSteps.

(** * The client of spotifyAuth.js *)

Section UrlParameters.

Import Auth.

Lemma append_cons (c : Ascii.ascii) (s t : string) :
  String c s +:+ t = String c (s +:+ t).
Proof. reflexivity. Qed.

Lemma append_empty_l (t : string) : "" +:+ t = t.
Proof. reflexivity. Qed.

Lemma append_assoc (s t u : string) : (s +:+ t) +:+ u = s +:+ (t +:+ u).
Proof.
  induction s as [| c s IH]; [reflexivity |].
  rewrite !append_cons, IH. reflexivity.
Qed.

Lemma strip_prefix_Some (p s rest : string) :
  strip_prefix p s = Some rest ↔ s = p +:+ rest.
Proof.
  revert s. induction p as [| a p IH]; intros s; simpl.
  - rewrite append_empty_l. split; congruence.
  - destruct s as [| b s]; [split; discriminate |].
    rewrite append_cons.
    destruct (bool_decide_reflect (a = b)) as [-> | Hne].
    + rewrite IH. split; congruence.
    + split; [discriminate | congruence].
Qed.

Lemma until_ampersand_split (s : string) :
  ∃ post, s = until_ampersand s +:+ post
          ∧ (post = "" ∨ ∃ post', post = "&" +:+ post').
Proof.
  induction s as [| c s (post & Hs & Hpost)]; simpl.
  - exists "". auto.
  - destruct (bool_decide_reflect (String c "" = "&")) as [Heq | Hne].
    + exists (String c s). split; [reflexivity |].
      right. exists s. rewrite <- Heq. reflexivity.
    + exists post. rewrite append_cons, <- Hs. auto.
Qed.

Lemma until_ampersand_clean (s a b : string) :
  until_ampersand s ≠ a +:+ "&" +:+ b.
Proof.
  revert a. induction s as [| c s IH]; intros a; simpl.
  - destruct a; discriminate.
  - destruct (bool_decide_reflect (String c "" = "&")) as [Heq | Hne].
    + destruct a; discriminate.
    + destruct a as [| c' a].
      * rewrite append_empty_l, append_cons. congruence.
      * rewrite append_cons. intros [= -> H]. exact (IH a H).
Qed.

Lemma match_param_Some (lit s v : string) :
  match_param lit s = Some v →
  ∃ pre rest, s = pre +:+ lit +:+ rest ∧ v = until_ampersand rest.
Proof.
  induction s as [| c s IH].
  - simpl. destruct (strip_prefix lit "") as [rest |] eqn:Hp; [| discriminate].
    intros [= <-]. apply strip_prefix_Some in Hp. exists "", rest. auto.
  - simpl. destruct (strip_prefix lit (String c s)) as [rest |] eqn:Hp.
    + intros [= <-]. apply strip_prefix_Some in Hp. exists "", rest. auto.
    + intros H. destruct (IH H) as (pre & rest & -> & ->).
      exists (String c pre), rest. auto.
Qed.

Lemma match_param_None (lit s : string) :
  match_param lit s = None ↔ ∀ pre post, s ≠ pre +:+ lit +:+ post.
Proof.
  induction s as [| c s IH]; simpl.
  - destruct (strip_prefix lit "") as [rest |] eqn:Hp.
    + apply strip_prefix_Some in Hp. split; [discriminate |].
      intros H. exfalso. apply (H "" rest). exact Hp.
    + split; [| reflexivity]. intros _ pre post Heq.
      destruct pre as [| c pre]; [| discriminate].
      rewrite append_empty_l in Heq. apply strip_prefix_Some in Heq. congruence.
  - destruct (strip_prefix lit (String c s)) as [rest |] eqn:Hp.
    + apply strip_prefix_Some in Hp. split; [discriminate |].
      intros H. exfalso. apply (H "" rest). exact Hp.
    + rewrite IH. split.
      * intros H pre post Heq. destruct pre as [| c' pre].
        -- rewrite append_empty_l in Heq. apply strip_prefix_Some in Heq. congruence.
        -- rewrite append_cons in Heq. injection Heq as -> Heq. exact (H pre post Heq).
      * intros H pre post Heq. apply (H (String c pre) post).
        rewrite append_cons, Heq. reflexivity.
Qed.

(** X9: The regular expressions of [getAccessToken]: a parameter is found
    exactly when its name followed by ["="] occurs in the URL; the value
    taken is the text after such an occurrence up to the next ["&"] or
    the end of the URL, and never contains ["&"]. *)
Theorem match_param_spec (lit s : string) :
  (match_param lit s = None ↔ ∀ pre post, s ≠ pre +:+ lit +:+ post)
  ∧ ∀ v, match_param lit s = Some v →
         (∀ a b, v ≠ a +:+ "&" +:+ b)
         ∧ ∃ pre post, s = pre +:+ lit +:+ v +:+ post
                       ∧ (post = "" ∨ ∃ post', post = "&" +:+ post').
Proof.
  split; [apply match_param_None |].
  intros v Hm. destruct (match_param_Some lit s v Hm) as (pre & rest & -> & ->).
  split; [intros a b; apply until_ampersand_clean |].
  destruct (until_ampersand_split rest) as (post & Hr & Hpost).
  exists pre, post. split; [| exact Hpost]. rewrite <- Hr. reflexivity.
Qed.

Lemma match_param_spec_witness :
  match_param "access_token="
    "http://127.0.0.1:3002/callback#access_token=BQD&token_type=Bearer&expires_in=3600"
  = Some "BQD"
  ∧ ∀ a b, "BQD" ≠ a +:+ "&" +:+ b.
Proof.
  split; [reflexivity |].
  destruct (match_param_spec "access_token="
    "http://127.0.0.1:3002/callback#access_token=BQD&token_type=Bearer&expires_in=3600")
    as [_ H].
  exact (proj1 (H "BQD" eq_refl)).
Defined.

End UrlParameters.

Section TokenState.

Import Auth.

Variable Number : string → jsnum.
Variable encodeURIComponent : string → string.

Local Abbreviation getAccessToken := (Auth.getAccessToken Number encodeURIComponent).
Local Abbreviation loadTokenFromStorage := (Auth.loadTokenFromStorage Number).
Local Abbreviation redirectToSpotifyAuth := (Auth.redirectToSpotifyAuth encodeURIComponent).

Local Arguments js_gt : simpl never.

Lemma getAccessToken_url (st : State) (tok ex : string) :
  no_valid_token st →
  match_param "access_token=" (href (browser st)) = Some tok →
  match_param "expires_in=" (href (browser st)) = Some ex →
  getAccessToken st
  = (Some tok,
     set_href (origin (browser st) +:+ "/")
       (saveTokenToStorage
          (set_memory {| accessToken := Some tok;
                         expiresIn := NumV (Number ex);
                         expirationTime :=
                           Some (expiration (now (browser st)) (Number ex)) |} st))).
Proof.
  intros Hno Ht He. unfold Auth.getAccessToken.
  unfold no_valid_token in Hno. rewrite Hno, Ht, He. reflexivity.
Qed.



Lemma loadTokenFromStorage_frame (st : State) :
  let '(loaded, st') := loadTokenFromStorage st in
  href (browser st') = href (browser st)
  ∧ origin (browser st') = origin (browser st)
  ∧ assigned (browser st') = assigned (browser st)
  ∧ now (browser st') = now (browser st)
  ∧ requests (browser st') = requests (browser st)
  ∧ (loaded = true →
     truthy (accessToken (memory st')) = true
     ∧ js_gt (expirationTime (memory st')) (now (browser st)) = true
     ∧ sessionStorage (browser st') = sessionStorage (browser st)).
Proof.
  unfold Auth.loadTokenFromStorage.
  destruct (sessionStorage (browser st)) as [s |] eqn:Hs;
    [| repeat split; discriminate].
  destruct (truthy (s !! token_key)) eqn:Htok; simpl; [| repeat split; discriminate].
  destruct (truthy (s !! time_key)) eqn:Htime; simpl; [| repeat split; discriminate].
  destruct (js_gt _ _) eqn:Hgt.
  - simpl. rewrite Hs. repeat split; assumption.
  - unfold clearTokenData; simpl. rewrite Hs. repeat split; discriminate.
Qed.

Lemma getAccessToken_frame (st st' : State) (r : option string) :
  getAccessToken st = (r, st') →
  requests (browser st') = requests (browser st)
  ∧ now (browser st') = now (browser st)
  ∧ origin (browser st') = origin (browser st)
  ∧ match r with
    | None => assigned (browser st') = Some (authorizeUrl encodeURIComponent)
    | Some tok =>
        assigned (browser st') = assigned (browser st)
        ∧ accessToken (memory st') = Some tok
    end.
Proof.
  unfold Auth.getAccessToken.
  destruct (truthy (accessToken (memory st))
            && js_gt (expirationTime (memory st)) (now (browser st))) eqn:Hv.
  { intros [= <- <-]. apply andb_prop in Hv as [Ht _].
    destruct (accessToken (memory st)) as [tok |]; [| discriminate]. auto. }
  assert (Hload : ∀ r st',
    (let (loaded, st0) := loadTokenFromStorage st in
     if loaded then (accessToken (memory st0), st0)
     else (None, redirectToSpotifyAuth st0)) = (r, st') →
    requests (browser st') = requests (browser st)
    ∧ now (browser st') = now (browser st)
    ∧ origin (browser st') = origin (browser st)
    ∧ match r with
      | None => assigned (browser st') = Some (authorizeUrl encodeURIComponent)
      | Some tok =>
          assigned (browser st') = assigned (browser st)
          ∧ accessToken (memory st') = Some tok
      end).
  { intros r0 st0. pose proof (loadTokenFromStorage_frame st) as Hf.
    destruct (loadTokenFromStorage st) as [loaded st1].
    destruct Hf as (_ & Ho & Ha & Hn & Hr & Hl).
    destruct loaded; intros [= <- <-].
    - destruct (Hl eq_refl) as (Ht & _).
      destruct (accessToken (memory st1)); [auto | discriminate].
    - simpl. auto. }
  destruct (match_param "access_token=" (href (browser st))) as [tok |];
    [| apply Hload].
  destruct (match_param "expires_in=" (href (browser st))) as [ex |];
    [| apply Hload].
  intros [= <- <-]. unfold saveTokenToStorage; simpl.
  destruct (sessionStorage (browser st)); simpl; auto.
Qed.

(** X11: [getAccessToken] sends no request and leaves the clock alone.  It
    returns [null] only after assigning the authorize URL to
    [window.location]; when it returns a token it assigns nothing, and
    the token returned is the one then held in memory. *)
Theorem getAccessToken_null_means_redirect (st st' : State) (r : option string) :
  getAccessToken st = (r, st') →
  requests (browser st') = requests (browser st)
  ∧ now (browser st') = now (browser st)
  ∧ match r with
    | None => assigned (browser st') = Some (authorizeUrl encodeURIComponent)
    | Some tok =>
        assigned (browser st') = assigned (browser st)
        ∧ accessToken (memory st') = Some tok
    end.
Proof.
  intros H. destruct (getAccessToken_frame st st' r H) as (H1 & H2 & _ & H3). auto.
Qed.

Lemma clearTokenData_with_storage (st : State) (s : gmap string string) :
  sessionStorage (browser st) = Some s →
  clearTokenData st
  = set_storage (Some (delete time_key (delete expires_key (delete token_key s))))
      (set_memory {| accessToken := None; expiresIn := Null; expirationTime := None |} st).
Proof. intros Hs. unfold clearTokenData; simpl. rewrite Hs. reflexivity. Qed.

Lemma clearTokenData_without_storage (st : State) :
  sessionStorage (browser st) = None →
  clearTokenData st
  = set_memory {| accessToken := None; expiresIn := Null; expirationTime := None |} st.
Proof. intros Hs. unfold clearTokenData; simpl. rewrite Hs. reflexivity. Qed.

(** X12: After [clearTokenData] the three fields are [null], the user does
    not count as authenticated, the three keys are gone from the storage
    while every other key is kept, nothing can be loaded from the
    storage, and unless the page URL carries a token the next
    [getAccessToken] redirects and returns [null]. *)
Theorem clearTokenData_forgets (st : State) :
  let st' := clearTokenData st in
  memory st' = {| accessToken := None; expiresIn := Null; expirationTime := None |}
  ∧ isAuthenticated st' = false
  ∧ (∀ s, sessionStorage (browser st) = Some s →
          ∃ s', sessionStorage (browser st') = Some s'
                ∧ s' !! token_key = None ∧ s' !! expires_key = None
                ∧ s' !! time_key = None
                ∧ ∀ k, k ≠ token_key → k ≠ expires_key → k ≠ time_key →
                       s' !! k = s !! k)
  ∧ loadTokenFromStorage st' = (false, st')
  ∧ (match_param "access_token=" (href (browser st)) = None →
     getAccessToken st' = (None, redirectToSpotifyAuth st')).
Proof.
  intros st'.
  assert (Hkeys : ∀ s : gmap string string,
            let s' := delete time_key (delete expires_key (delete token_key s)) in
            s' !! token_key = None ∧ s' !! expires_key = None ∧ s' !! time_key = None
            ∧ ∀ k, k ≠ token_key → k ≠ expires_key → k ≠ time_key → s' !! k = s !! k).
  { intros s s'. subst s'. repeat split.
    - rewrite lookup_delete_ne, lookup_delete_ne, lookup_delete_eq by discriminate.
      reflexivity.
    - rewrite lookup_delete_ne, lookup_delete_eq by discriminate. reflexivity.
    - rewrite lookup_delete_eq. reflexivity.
    - intros k H1 H2 H3. rewrite !lookup_delete_ne by congruence. reflexivity. }
  assert (Hall : memory st'
                 = {| accessToken := None; expiresIn := Null; expirationTime := None |}
               ∧ href (browser st') = href (browser st)
               ∧ loadTokenFromStorage st' = (false, st')).
  { subst st'. destruct (sessionStorage (browser st)) as [s |] eqn:Hs.
    - rewrite (clearTokenData_with_storage st s Hs).
      split; [reflexivity |]. split; [reflexivity |].
      unfold Auth.loadTokenFromStorage; simpl.
      destruct (Hkeys s) as (-> & _). reflexivity.
    - rewrite (clearTokenData_without_storage st Hs).
      split; [reflexivity |]. split; [reflexivity |].
      unfold Auth.loadTokenFromStorage; simpl. rewrite Hs. reflexivity. }
  destruct Hall as (Hmem & Hhref & Hload).
  split; [exact Hmem |].
  split; [unfold isAuthenticated; rewrite Hmem; reflexivity |].
  split.
  { intros s Hs. subst st'. rewrite (clearTokenData_with_storage st s Hs).
    eexists. split; [reflexivity |]. apply Hkeys. }
  split; [exact Hload |].
  intros Hurl. unfold Auth.getAccessToken. rewrite Hmem; simpl.
  rewrite Hhref, Hurl, Hload. reflexivity.
Qed.


Lemma pretty_N_go_nonempty (x : N) (s : string) : s ≠ "" → pretty_N_go x s ≠ "".
Proof.
  revert s. induction (N.lt_wf_0 x) as [x _ IH]; intros s Hs.
  destruct (decide (x = 0)%N) as [-> | Hx].
  - rewrite pretty_N_go_0. exact Hs.
  - rewrite pretty_N_go_step by lia. apply IH; [| discriminate].
    apply N.div_lt; lia.
Qed.

Lemma pretty_Z_nonempty (z : Z) : pretty z ≠ "".
Proof.
  assert (Hpos : ∀ p : positive, pretty (N.pos p) ≠ "").
  { intros p. unfold pretty, pretty_N. rewrite decide_False by discriminate.
    rewrite pretty_N_go_step by lia. apply pretty_N_go_nonempty. discriminate. }
  destruct z as [| p | p]; unfold pretty, pretty_Z.
  - discriminate.
  - apply Hpos.
  - discriminate.
Qed.

Lemma truthy_Some (v : string) : v ≠ "" → truthy (Some v) = true.
Proof.
  intros Hv. unfold truthy. rewrite bool_decide_eq_false_2 by assumption. reflexivity.
Qed.


(*TOKEN_THEOREMS*)
End TokenState.

Section TokenStateExamples.

Import Auth.



Lemma getAccessToken_null_means_redirect_witness :
  ∃ st', Auth.getAccessToken sample_Number sample_encode
           (page_reload "http://127.0.0.1:3002/" 1000000 callback_state) = (None, st')
         ∧ assigned (browser st') = Some (authorizeUrl sample_encode)
         ∧ requests (browser st') = [].
Proof.
  eexists. split; [reflexivity |].
  edestruct (getAccessToken_null_means_redirect sample_Number sample_encode
               (page_reload "http://127.0.0.1:3002/" 1000000 callback_state))
    as (Hr & _ & Ha); [reflexivity |].
  split; [exact Ha | exact Hr].
Defined.


Lemma clearTokenData_forgets_witness :
  sessionStorage (browser signed_in_state)
  = Some (<[time_key := "4540000"]> (<[expires_key := "3600"]> (<[token_key := "BQD"]> ∅)))
  ∧ isAuthenticated signed_in_state = true
  ∧ isAuthenticated (clearTokenData signed_in_state) = false
  ∧ sessionStorage (browser (clearTokenData signed_in_state)) = Some ∅
  ∧ Auth.getAccessToken sample_Number sample_encode (clearTokenData signed_in_state)
    = (None, Auth.redirectToSpotifyAuth sample_encode (clearTokenData signed_in_state)).
Proof.
  destruct (clearTokenData_forgets sample_Number sample_encode signed_in_state)
    as (_ & Hauth & _ & _ & Hget).
  split; [reflexivity |]. split; [reflexivity |]. split; [exact Hauth |].
  split; [reflexivity |]. apply Hget. reflexivity.
Defined.


(*TOKEN_WITNESSES*)
End TokenStateExamples.

Section Requests.

Import Auth.

Variable Number : string → jsnum.
Variable encodeURIComponent : string → string.
Variable network : list Request → Request → Reply.

Local Abbreviation getAccessToken := (Auth.getAccessToken Number encodeURIComponent).
Local Abbreviation redirectToSpotifyAuth := (Auth.redirectToSpotifyAuth encodeURIComponent).
Local Abbreviation fetchFromSpotify :=
  (Auth.fetchFromSpotify Number encodeURIComponent network).

Local Arguments js_gt : simpl never.

Lemma getAccessToken_valid (tok : string) (st : State) :
  valid_token tok st → getAccessToken st = (Some tok, st).
Proof.
  intros (Hm & Hne & Hgt). unfold Auth.getAccessToken.
  rewrite Hm, Hgt, (truthy_Some tok Hne). reflexivity.
Qed.

Lemma fetchFromSpotify_S (k : nat) (e : string) (m : option string)
      (b : option Payload) (st : State) :
  fetchFromSpotify (S k) e m b st =
  let (token, st1) := getAccessToken st in
  match token with
  | Some tk =>
      if truthy token then
        let rp := network (requests (browser st1)) (api_request e m b tk) in
        let st2 := sent (api_request e m b tk) (arrival rp) st1 in
        match outcome rp with
        | Response status json =>
            if bool_decide (status = 401)
            then fetchFromSpotify k e m b (clearTokenData st2)
            else (Some (settle_reply (outcome rp)), st2)
        | NetworkFailure => (Some (settle_reply (outcome rp)), st2)
        end
      else (Some (Failed NoAccessToken), st1)
  | None => (Some (Failed NoAccessToken), st1)
  end.
Proof.
  simpl. destruct (getAccessToken st) as [[tk |] st1]; [| reflexivity].
  destruct (truthy (Some tk)); [| reflexivity].
  unfold fetch, api_request.
  destruct (outcome _) as [| status json] eqn:Ho; [reflexivity |].
  destruct (bool_decide (status = 401)); [reflexivity |].
  unfold settle_reply. destruct (negb (ok status)); [reflexivity |].
  destruct (bool_decide (status = 204)); [reflexivity |].
  destruct json; reflexivity.
Qed.

Lemma fetchFromSpotify_more_fuel (k : nat) (e : string) (m : option string)
      (b : option Payload) (st st' : State) (r : settled Json) :
  fetchFromSpotify k e m b st = (Some r, st') →
  fetchFromSpotify (S k) e m b st = (Some r, st').
Proof.
  revert st. induction k as [| k IH]; intros st; [discriminate |].
  rewrite (fetchFromSpotify_S (S k)), (fetchFromSpotify_S k).
  destruct (getAccessToken st) as [[tk |] st1]; [| auto].
  destruct (truthy (Some tk)); [| auto]. cbv zeta.
  destruct (outcome _) as [| status json]; [auto |].
  destruct (bool_decide (status = 401)); [apply IH | auto].
Qed.

Lemma fetchFromSpotify_fuel_le (k k' : nat) (e : string) (m : option string)
      (b : option Payload) (st st' : State) (r : settled Json) :
  (k ≤ k')%nat →
  fetchFromSpotify k e m b st = (Some r, st') →
  fetchFromSpotify k' e m b st = (Some r, st').
Proof.
  induction 1 as [| k' _ IH]; [auto |].
  intros H. apply fetchFromSpotify_more_fuel, IH, H.
Qed.

Lemma clearTokenData_frame (st : State) :
  cleared (clearTokenData st)
  ∧ href (browser (clearTokenData st)) = href (browser st)
  ∧ origin (browser (clearTokenData st)) = origin (browser st)
  ∧ requests (browser (clearTokenData st)) = requests (browser st)
  ∧ assigned (browser (clearTokenData st)) = assigned (browser st)
  ∧ now (browser (clearTokenData st)) = now (browser st)
  ∧ memory (clearTokenData st)
    = {| accessToken := None; expiresIn := Null; expirationTime := None |}.
Proof.
  destruct (sessionStorage (browser st)) as [s |] eqn:Hs.
  - rewrite (clearTokenData_with_storage st s Hs). repeat split.
    intros s' [= <-].
    rewrite lookup_delete_ne, lookup_delete_ne, lookup_delete_eq by discriminate.
    reflexivity.
  - rewrite (clearTokenData_without_storage st Hs). repeat split.
    intros s'. simpl. rewrite Hs. discriminate.
Qed.

Lemma cleared_loads_nothing (st : State) :
  cleared st → Auth.loadTokenFromStorage Number st = (false, st).
Proof.
  intros [_ Hs]. unfold Auth.loadTokenFromStorage.
  destruct (sessionStorage (browser st)) as [s |]; [| reflexivity].
  rewrite (Hs s eq_refl). reflexivity.
Qed.

Lemma cleared_redirects (st : State) :
  cleared st →
  match_param "access_token=" (href (browser st)) = None
  ∨ match_param "expires_in=" (href (browser st)) = None →
  getAccessToken st = (None, redirectToSpotifyAuth st).
Proof.
  intros Hc Hurl. unfold Auth.getAccessToken.
  rewrite (proj1 Hc). cbn [truthy andb].
  rewrite (cleared_loads_nothing st Hc).
  destruct Hurl as [-> | ->]; [reflexivity |].
  destruct (match_param "access_token=" (href (browser st))); reflexivity.
Qed.

Lemma cleared_takes_url (st : State) (tok ex : string) :
  cleared st →
  match_param "access_token=" (href (browser st)) = Some tok →
  match_param "expires_in=" (href (browser st)) = Some ex →
  ∃ st', getAccessToken st = (Some tok, st')
         ∧ href (browser st') = origin (browser st) +:+ "/"
         ∧ origin (browser st') = origin (browser st)
         ∧ requests (browser st') = requests (browser st).
Proof.
  intros Hc Ht He. eexists. split.
  - apply (getAccessToken_url Number encodeURIComponent st tok ex);
      [| assumption | assumption].
    unfold no_valid_token. rewrite (proj1 Hc). reflexivity.
  - unfold saveTokenToStorage; simpl.
    destruct (sessionStorage (browser st)); repeat split.
Qed.

Lemma cleared_fails (k : nat) (e : string) (m : option string) (b : option Payload)
      (st : State) :
  cleared st →
  match_param "access_token=" (href (browser st)) = None
  ∨ match_param "expires_in=" (href (browser st)) = None →
  fetchFromSpotify (S k) e m b st
  = (Some (Failed NoAccessToken), redirectToSpotifyAuth st).
Proof.
  intros Hc Hurl. rewrite fetchFromSpotify_S, (cleared_redirects st Hc Hurl).
  reflexivity.
Qed.

(** X14: With a valid token in memory and no token in the page URL, a 401
    answer ends in a redirect: the token is cleared from memory and from
    the storage, the retry finds no token, assigns the authorize URL and
    the call rejects for want of a token; only the one request was
    sent. *)
Theorem unauthorized_ends_in_redirect (k : nat) (e : string) (m : option string)
        (b : option Payload) (st : State) (tok : string) (json : option Json) :
  valid_token tok st →
  match_param "access_token=" (href (browser st)) = None →
  outcome (network (requests (browser st)) (api_request e m b tok)) = Response 401 json →
  ∃ st', fetchFromSpotify (S (S k)) e m b st = (Some (Failed NoAccessToken), st')
         ∧ requests (browser st') = requests (browser st) ++ [api_request e m b tok]
         ∧ memory st'
           = {| accessToken := None; expiresIn := Null; expirationTime := None |}
         ∧ cleared st'
         ∧ assigned (browser st') = Some (authorizeUrl encodeURIComponent)
         ∧ isAuthenticated st' = false.
Proof.
  intros Hv Hurl Ho.
  set (rq := api_request e m b tok) in *.
  set (st2 := sent rq (arrival (network (requests (browser st)) rq)) st).
  destruct (clearTokenData_frame st2) as (Hc & Hh & _ & Hr & _ & _ & Hm).
  exists (redirectToSpotifyAuth (clearTokenData st2)). split.
  - rewrite fetchFromSpotify_S, (getAccessToken_valid tok st Hv).
    rewrite (truthy_Some tok (proj1 (proj2 Hv))). cbv zeta. fold rq. rewrite Ho.
    rewrite bool_decide_eq_true_2 by reflexivity.
    apply cleared_fails; [exact Hc |]. left. rewrite Hh. exact Hurl.
  - split; [simpl; rewrite Hr; reflexivity |].
    split; [exact Hm |].
    split; [exact Hc |].
    split; [reflexivity |].
    unfold isAuthenticated. simpl. rewrite Hm. reflexivity.
Qed.

Lemma fetchFromSpotify_answered (k : nat) (e : string) (m : option string)
      (b : option Payload) (st : State) (tok : string) :
  valid_token tok st →
  (∀ json, outcome (network (requests (browser st)) (api_request e m b tok))
           ≠ Response 401 json) →
  fetchFromSpotify (S k) e m b st
  = (Some (settle_reply (outcome (network (requests (browser st))
                                    (api_request e m b tok)))),
     sent (api_request e m b tok)
       (arrival (network (requests (browser st)) (api_request e m b tok))) st).
Proof.
  intros Hv Hne. rewrite fetchFromSpotify_S, (getAccessToken_valid tok st Hv).
  rewrite (truthy_Some tok (proj1 (proj2 Hv))). cbv zeta.
  destruct (outcome _) as [| status json] eqn:Ho; [reflexivity |].
  destruct (bool_decide_reflect (status = 401)) as [-> | _]; [| reflexivity].
  exfalso. exact (Hne json eq_refl).
Qed.

Lemma valid_token_sent (tok : string) (st : State) (rq : Request) (a exp : Z) :
  valid_token tok st →
  expirationTime (memory st) = Some (Num exp) →
  a < exp →
  valid_token tok (sent rq a st).
Proof.
  intros (Hm & Hne & Hgt) Hexp Ha. repeat split; try assumption.
  simpl. rewrite Hexp in *. unfold js_gt in *.
  apply bool_decide_eq_true in Hgt. apply bool_decide_eq_true. lia.
Qed.

(** X15: Every request that [fetchFromSpotify] sends goes to the given
    endpoint of the API with the given method and body and carries a
    non-empty bearer token; earlier requests are left in place. *)
Theorem requests_carry_a_token (fuel : nat) (e : string) (m : option string)
        (b : option Payload) (st st' : State) (r : option (settled Json)) :
  fetchFromSpotify fuel e m b st = (r, st') →
  ∃ new, requests (browser st') = requests (browser st) ++ new
         ∧ Forall (λ rq, ∃ tok, tok ≠ "" ∧ rq = api_request e m b tok) new.
Proof.
  revert st. induction fuel as [| k IH]; intros st.
  - intros [= <- <-]. exists []. rewrite app_nil_r. auto.
  - rewrite fetchFromSpotify_S.
    destruct (getAccessToken st) as [[tk |] st1] eqn:Hg;
      destruct (getAccessToken_frame Number encodeURIComponent st st1 _ Hg)
        as (Hr & _).
    2: { intros [= <- <-]. exists []. rewrite app_nil_r. auto. }
    destruct (truthy (Some tk)) eqn:Ht.
    2: { intros [= <- <-]. exists []. rewrite app_nil_r. auto. }
    assert (Htk : tk ≠ "").
    { intros ->. discriminate. }
    cbv zeta.
    set (rq := api_request e m b tk).
    set (st2 := sent rq (arrival (network (requests (browser st1)) rq)) st1).
    assert (Hone : ∀ x, requests (browser x) = requests (browser st2) →
              ∃ new, requests (browser x) = requests (browser st) ++ new
                     ∧ Forall (λ rq, ∃ tok, tok ≠ "" ∧ rq = api_request e m b tok) new).
    { intros x ->. exists [rq]. simpl. rewrite Hr. split; [reflexivity |].
      constructor; [| constructor]. exists tk. auto. }
    destruct (outcome _) as [| status json].
    { intros [= <- <-]. apply Hone. reflexivity. }
    destruct (bool_decide (status = 401)).
    2: { intros [= <- <-]. apply Hone. reflexivity. }
    intros H. destruct (IH _ H) as (new & Hnew & Hall).
    destruct (clearTokenData_frame st2) as (_ & _ & _ & Hrc & _).
    exists (rq :: new). split.
    + rewrite Hnew, Hrc. simpl. rewrite Hr, <- app_assoc. reflexivity.
    + constructor; [| exact Hall]. exists tk. auto.
Qed.

Lemma settles_cleared (e : string) (m : option string) (b : option Payload)
      (x : State) :
  cleared x →
  match_param "access_token=" (origin (browser x) +:+ "/") = None →
  ∃ r x', fetchFromSpotify 2 e m b x = (Some r, x')
          ∧ (length (requests (browser x')) ≤ length (requests (browser x)) + 1)%nat.
Proof.
  intros Hc Horigin.
  destruct (match_param "access_token=" (href (browser x))) as [tok |] eqn:Ha.
  2: { eexists _, _. split; [apply cleared_fails; auto |]. simpl. lia. }
  destruct (match_param "expires_in=" (href (browser x))) as [ex |] eqn:He.
  2: { eexists _, _. split; [apply cleared_fails; auto |]. simpl. lia. }
  destruct (cleared_takes_url x tok ex Hc Ha He) as (y & Hg & Hh & Ho & Hr).
  rewrite fetchFromSpotify_S, Hg.
  destruct (truthy (Some tok)).
  2: { eexists _, _. split; [reflexivity |]. rewrite Hr. lia. }
  cbv zeta.
  set (rq := api_request e m b tok).
  set (st2 := sent rq (arrival (network (requests (browser y)) rq)) y).
  assert (Hlen : length (requests (browser st2)) = (length (requests (browser x)) + 1)%nat).
  { simpl. rewrite length_app, Hr. reflexivity. }
  destruct (outcome _) as [| status json].
  { eexists _, _. split; [reflexivity |]. lia. }
  destruct (bool_decide (status = 401)).
  2: { eexists _, _. split; [reflexivity |]. lia. }
  destruct (clearTokenData_frame st2) as (Hc2 & Hh2 & _ & Hr2 & _).
  eexists _, _. split.
  - apply cleared_fails; [exact Hc2 |]. left.
    rewrite Hh2. change (href (browser st2)) with (href (browser y)).
    rewrite Hh. exact Horigin.
  - simpl. rewrite Hr2. lia.
Qed.

(** X16: [fetchFromSpotify] always settles, provided the URL that
    [pushState] leaves behind carries no token: three rounds are enough
    whatever the network answers, more rounds give the same result, and
    at most two requests are sent. *)
Theorem fetchFromSpotify_settles (e : string) (m : option string)
        (b : option Payload) (st : State) :
  match_param "access_token=" (origin (browser st) +:+ "/") = None →
  ∃ r st', (∀ fuel, (3 ≤ fuel)%nat → fetchFromSpotify fuel e m b st = (Some r, st'))
           ∧ (length (requests (browser st')) ≤ length (requests (browser st)) + 2)%nat.
Proof.
  intros Horigin.
  assert (H3 : ∃ r st', fetchFromSpotify 3 e m b st = (Some r, st')
             ∧ (length (requests (browser st')) ≤ length (requests (browser st)) + 2)%nat).
  { rewrite fetchFromSpotify_S.
    destruct (getAccessToken st) as [[tk |] st1] eqn:Hg;
      destruct (getAccessToken_frame Number encodeURIComponent st st1 _ Hg)
        as (Hr & _ & Ho & _).
    2: { eexists _, _. split; [reflexivity |]. rewrite Hr. lia. }
    destruct (truthy (Some tk)).
    2: { eexists _, _. split; [reflexivity |]. rewrite Hr. lia. }
    cbv zeta.
    set (rq := api_request e m b tk).
    set (st2 := sent rq (arrival (network (requests (browser st1)) rq)) st1).
    assert (Hlen : length (requests (browser st2))
                   = (length (requests (browser st)) + 1)%nat).
    { simpl. rewrite length_app, Hr. reflexivity. }
    destruct (outcome _) as [| status json].
    { eexists _, _. split; [reflexivity |]. lia. }
    destruct (bool_decide (status = 401)).
    2: { eexists _, _. split; [reflexivity |]. lia. }
    destruct (clearTokenData_frame st2) as (Hc2 & _ & Ho2 & Hr2 & _).
    destruct (settles_cleared e m b (clearTokenData st2) Hc2) as (r & x' & Hf & Hl).
    { rewrite Ho2. change (origin (browser st2)) with (origin (browser st1)).
      rewrite Ho. exact Horigin. }
    exists r, x'. split; [exact Hf |]. rewrite Hr2 in Hl. lia. }
  destruct H3 as (r & st' & Hf & Hl). exists r, st'. split; [| exact Hl].
  intros fuel Hfuel. eapply fetchFromSpotify_fuel_le; eassumption.
Qed.

Local Abbreviation search := (Auth.search Number encodeURIComponent network).
Local Abbreviation savePlaylist := (Auth.savePlaylist Number encodeURIComponent network).

Lemma ok_not_401 (status : Z) : ok status = true → status ≠ 401.
Proof.
  unfold ok. intros H. apply andb_prop in H as [_ H].
  apply bool_decide_eq_true in H. lia.
Qed.

Lemma settle_reply_ok (status : Z) (j : Json) :
  ok status = true → status ≠ 204 →
  settle_reply (Response status (Some j)) = Resolved j.
Proof.
  intros Hok Hne. unfold settle_reply. rewrite Hok. simpl.
  rewrite bool_decide_eq_false_2 by assumption. reflexivity.
Qed.

(** X17: An empty search term resolves to the empty list without looking for
    a token and without a request.  With a valid token in memory and a
    successful answer with a JSON body, a non-empty term sends exactly
    one GET request for the encoded term and resolves to what the
    callback makes of the body, leaving the token state as it was. *)
Theorem search_sends_one_request (k : nat) (term : string) (st : State)
        (tok : string) (status : Z) (j : Json) :
  search k "" st = (Some (Resolved []), st)
  ∧ (term ≠ "" → valid_token tok st →
     let rq := api_request ("/search?type=track&q=" +:+ encodeURIComponent term)
                 None None tok in
     outcome (network (requests (browser st)) rq) = Response status (Some j) →
     ok status = true → status ≠ 204 →
     ∃ st', search (S k) term st
            = (Some match SpotifyAuth.search (search_data j) with
                    | Fulfilled ts => Resolved ts
                    | Rejected => Failed TypeError
                    end, st')
            ∧ requests (browser st') = requests (browser st) ++ [rq]
            ∧ method rq = "GET" ∧ body rq = None
            ∧ memory st' = memory st
            ∧ assigned (browser st') = assigned (browser st)).
Proof.
  split; [reflexivity |].
  intros Hterm Hv rq Ho Hok Hne.
  exists (sent rq (arrival (network (requests (browser st)) rq)) st).
  split; [| repeat split].
  unfold Auth.search. rewrite bool_decide_eq_false_2 by assumption.
  rewrite (fetchFromSpotify_answered k _ None None st tok Hv).
  - fold rq. rewrite Ho, (settle_reply_ok status j Hok Hne).
    destruct (SpotifyAuth.search (search_data j)); reflexivity.
  - fold rq. rewrite Ho. intros json [= H _]. exact (ok_not_401 status Hok H).
Qed.

(** X18: [savePlaylist] resolves at once, without a request and without
    looking for a token, when the name or the list of tracks is empty.
    Otherwise, with a valid token, when the request for the user fails
    (any answer but a 401), the call rejects with that failure and no
    further request is sent. *)
Theorem savePlaylist_stops_early (k : nat) (name : string) (uris : list string)
        (st : State) (tok : string) (why : Failure) :
  (name = "" ∨ uris = [] → savePlaylist k name uris st = (Some (Resolved None), st))
  ∧ (name ≠ "" → uris ≠ [] → valid_token tok st →
     let rq := api_request "/me" None None tok in
     let rp := network (requests (browser st)) rq in
     (∀ json, outcome rp ≠ Response 401 json) →
     settle_reply (outcome rp) = Failed why →
     ∃ st', savePlaylist (S k) name uris st = (Some (Failed why), st')
            ∧ requests (browser st') = requests (browser st) ++ [rq]).
Proof.
  split.
  - intros [-> | ->]; unfold Auth.savePlaylist.
    + reflexivity.
    + rewrite orb_true_r. reflexivity.
  - intros Hname Huris Hv rq rp Hne Hfail.
    exists (sent rq (arrival rp) st). split; [| reflexivity].
    unfold Auth.savePlaylist.
    rewrite (bool_decide_eq_false_2 (name = "")) by assumption.
    rewrite (bool_decide_eq_false_2 (uris = [])) by assumption.
    cbn [orb].
    rewrite (fetchFromSpotify_answered k "/me" None None st tok Hv Hne).
    fold rq rp. rewrite Hfail. reflexivity.
Qed.

(** X19: With a name, at least one track and a token that stays valid until
    the answers have arrived, [savePlaylist] sends exactly three
    requests in this order: GET /me, POST the name to the playlists of
    the user whose identifier the first answer gave, POST the track URIs
    to the playlist whose identifier the second answer gave; it resolves
    to the body of the third answer. *)
Theorem savePlaylist_three_requests (k : nat) (name : string) (uris : list string)
        (st : State) (tok : string) (exp : Z) (s1 s2 s3 : Z)
        (user playlist : JsonObject) (j3 : Json) :
  name ≠ "" → uris ≠ [] →
  valid_token tok st →
  expirationTime (memory st) = Some (Num exp) →
  let past := requests (browser st) in
  let rq1 := api_request "/me" None None tok in
  let rq2 := api_request ("/users/" +:+ default "undefined" (json_id user) +:+ "/playlists")
               (Some "POST") (Some (PlaylistName name)) tok in
  let rq3 := api_request ("/playlists/" +:+ default "undefined" (json_id playlist)
                          +:+ "/tracks")
               (Some "POST") (Some (TrackUris uris)) tok in
  outcome (network past rq1) = Response s1 (Some (JObj user)) →
  outcome (network (past ++ [rq1]) rq2) = Response s2 (Some (JObj playlist)) →
  outcome (network (past ++ [rq1; rq2]) rq3) = Response s3 (Some j3) →
  ok s1 = true → s1 ≠ 204 → ok s2 = true → s2 ≠ 204 → ok s3 = true → s3 ≠ 204 →
  arrival (network past rq1) < exp →
  arrival (network (past ++ [rq1]) rq2) < exp →
  ∃ st', savePlaylist (S k) name uris st = (Some (Resolved (Some j3)), st')
         ∧ requests (browser st') = past ++ [rq1; rq2; rq3]
         ∧ method rq1 = "GET" ∧ method rq2 = "POST" ∧ method rq3 = "POST"
         ∧ memory st' = memory st
         ∧ assigned (browser st') = assigned (browser st).
Proof.
  intros Hname Huris Hv Hexp past rq1 rq2 rq3 Ho1 Ho2 Ho3
         Hok1 Hn1 Hok2 Hn2 Hok3 Hn3 Ha1 Ha2.
  set (st1 := sent rq1 (arrival (network past rq1)) st).
  set (st2 := sent rq2 (arrival (network (past ++ [rq1]) rq2)) st1).
  set (st3 := sent rq3 (arrival (network (past ++ [rq1; rq2]) rq3)) st2).
  assert (Hv1 : valid_token tok st1) by (eapply valid_token_sent; eassumption).
  assert (Hv2 : valid_token tok st2) by (eapply valid_token_sent; eassumption).
  assert (Hr2 : requests (browser st2) = past ++ [rq1; rq2]).
  { simpl. rewrite <- app_assoc. reflexivity. }
  exists st3. split.
  - unfold Auth.savePlaylist.
    rewrite (bool_decide_eq_false_2 (name = "")) by assumption.
    rewrite (bool_decide_eq_false_2 (uris = [])) by assumption.
    cbn [orb].
    rewrite (fetchFromSpotify_answered k "/me" None None st tok Hv).
    2: { fold past rq1. rewrite Ho1. intros json [= H _].
         exact (ok_not_401 s1 Hok1 H). }
    fold past rq1 st1. rewrite Ho1, (settle_reply_ok s1 _ Hok1 Hn1).
    cbn [id_of].
    rewrite (fetchFromSpotify_answered k _ (Some "POST") (Some (PlaylistName name))
               st1 tok Hv1).
    2: { change (requests (browser st1)) with (past ++ [rq1]). fold rq2.
         rewrite Ho2. intros json [= H _]. exact (ok_not_401 s2 Hok2 H). }
    change (requests (browser st1)) with (past ++ [rq1]). fold rq2 st2.
    rewrite Ho2, (settle_reply_ok s2 _ Hok2 Hn2).
    cbn [id_of].
    rewrite (fetchFromSpotify_answered k _ (Some "POST") (Some (TrackUris uris))
               st2 tok Hv2).
    2: { rewrite Hr2. fold rq3. rewrite Ho3. intros json [= H _].
         exact (ok_not_401 s3 Hok3 H). }
    rewrite Hr2. fold rq3 st3.
    rewrite Ho3, (settle_reply_ok s3 _ Hok3 Hn3). reflexivity.
  - split; [| repeat split].
    simpl. rewrite <- !app_assoc. reflexivity.
Qed.

(** X23: [savePlaylist] of spotifyAuth.js asks for the token before each of
    its requests: when the token in memory (and in the storage) expires
    while the answer to the first request is under way, no second
    request is sent; the expired token is cleared, the authorize URL is
    assigned, and the call rejects for want of a token. *)
Theorem savePlaylist_token_expires_midway (k : nat) (name : string)
        (uris : list string) (st : State) (tok : string) (exp : Z) (s1 : Z)
        (user : JsonObject) :
  name ≠ "" → uris ≠ [] →
  valid_token tok st →
  expirationTime (memory st) = Some (Num exp) →
  stored_as_saved tok exp st →
  Number (pretty exp) = Num exp →
  match_param "access_token=" (href (browser st)) = None →
  let rq1 := api_request "/me" None None tok in
  let rp1 := network (requests (browser st)) rq1 in
  outcome rp1 = Response s1 (Some (JObj user)) →
  ok s1 = true → s1 ≠ 204 →
  exp ≤ arrival rp1 →
  ∃ st', savePlaylist (S k) name uris st = (Some (Failed NoAccessToken), st')
         ∧ requests (browser st') = requests (browser st) ++ [rq1]
         ∧ memory st'
           = {| accessToken := None; expiresIn := Null; expirationTime := None |}
         ∧ cleared st'
         ∧ assigned (browser st') = Some (authorizeUrl encodeURIComponent).
Proof.
  intros Hname Huris Hv Hexp (s & Hs & Hk1 & Hk2) Hround Hurl rq1 rp1 Ho Hok Hn Hlate.
  set (st1 := sent rq1 (arrival rp1) st).
  assert (Hexpired : js_gt (Some (Num exp)) (now (browser st1)) = false).
  { unfold js_gt. simpl. apply bool_decide_eq_false. lia. }
  set (loaded := set_memory
                   {| accessToken := Some tok;
                      expiresIn := match s !! expires_key with
                                   | Some v => StrV v
                                   | None => Null
                                   end;
                      expirationTime := Some (Num exp) |} st1).
  assert (Hload : Auth.loadTokenFromStorage Number st1 = (false, clearTokenData loaded)).
  { unfold Auth.loadTokenFromStorage.
    change (sessionStorage (browser st1)) with (sessionStorage (browser st)).
    rewrite Hs. cbv beta iota. rewrite Hk1, Hk2.
    rewrite (truthy_Some tok (proj1 (proj2 Hv))),
            (truthy_Some _ (pretty_Z_nonempty exp)).
    cbn [andb default from_option id]. rewrite Hround.
    change (now (browser (set_memory _ st1))) with (now (browser st1)).
    rewrite Hexpired. reflexivity. }
  assert (Hget : getAccessToken st1
                 = (None, redirectToSpotifyAuth (clearTokenData loaded))).
  { unfold Auth.getAccessToken.
    change (memory st1) with (memory st). rewrite Hexp, Hexpired, andb_false_r.
    change (href (browser st1)) with (href (browser st)). rewrite Hurl, Hload.
    reflexivity. }
  exists (redirectToSpotifyAuth (clearTokenData loaded)). split.
  - unfold Auth.savePlaylist.
    rewrite (bool_decide_eq_false_2 (name = "")) by assumption.
    rewrite (bool_decide_eq_false_2 (uris = [])) by assumption.
    cbn [orb].
    rewrite (fetchFromSpotify_answered k "/me" None None st tok Hv).
    2: { fold rq1 rp1. rewrite Ho. intros json [= H _]. exact (ok_not_401 s1 Hok H). }
    fold rq1 rp1 st1. rewrite Ho, (settle_reply_ok s1 _ Hok Hn). cbn [id_of].
    rewrite fetchFromSpotify_S, Hget. reflexivity.
  - destruct (clearTokenData_frame loaded) as (Hc & _ & _ & Hr & _ & _ & Hm).
    split; [simpl; rewrite Hr; reflexivity |].
    split; [exact Hm |]. split; [exact Hc |]. reflexivity.
Qed.

End Requests.

Section RequestExamples.

Import Auth.

Lemma signed_in_valid : valid_token "BQD" signed_in_state.
Proof. split; [reflexivity |]. split; [discriminate | reflexivity]. Qed.

Lemma unauthorized_ends_in_redirect_witness :
  ∃ st', Auth.fetchFromSpotify sample_Number sample_encode always_401 2
           "/me" None None signed_in_state = (Some (Failed NoAccessToken), st')
         ∧ requests (browser st') = [api_request "/me" None None "BQD"]
         ∧ assigned (browser st') = Some (authorizeUrl sample_encode)
         ∧ isAuthenticated st' = false.
Proof.
  destruct (unauthorized_ends_in_redirect sample_Number sample_encode always_401 0
              "/me" None None signed_in_state "BQD" None signed_in_valid
              eq_refl eq_refl)
    as (st' & Hf & Hr & _ & _ & Ha & Hi).
  exists st'. auto.
Defined.

Lemma requests_carry_a_token_witness :
  ∃ r st' new,
    Auth.fetchFromSpotify sample_Number sample_encode always_401 3
      "/me" None None signed_in_state = (r, st')
    ∧ requests (browser st') = requests (browser signed_in_state) ++ new
    ∧ Forall (λ rq, ∃ tok, tok ≠ "" ∧ rq = api_request "/me" None None tok) new.
Proof.
  eexists _, _.
  edestruct (requests_carry_a_token sample_Number sample_encode always_401 3
               "/me" None None signed_in_state) as (new & Hr & Hall);
    [reflexivity |].
  exists new. split; [reflexivity |]. split; [exact Hr | exact Hall].
Defined.

Lemma fetchFromSpotify_settles_witness :
  match_param "access_token=" (origin (browser signed_in_state) +:+ "/") = None
  ∧ ∃ r st',
      Auth.fetchFromSpotify sample_Number sample_encode always_401 3
        "/me" None None signed_in_state = (Some r, st')
      ∧ (length (requests (browser st')) ≤ 2)%nat.
Proof.
  split; [reflexivity |].
  destruct (fetchFromSpotify_settles sample_Number sample_encode always_401
              "/me" None None signed_in_state eq_refl) as (r & st' & Hf & Hl).
  exists r, st'. split; [apply Hf; lia | exact Hl].
Defined.

Lemma search_sends_one_request_witness :
  ∃ st', Auth.search sample_Number sample_encode search_network 1 "abba" signed_in_state
         = (Some (Resolved [sample_record]), st')
         ∧ requests (browser st')
           = [api_request "/search?type=track&q=abba" None None "BQD"].
Proof.
  destruct (search_sends_one_request sample_Number sample_encode search_network 0
              "abba" signed_in_state "BQD" 200
              (JObj {| search_view := sample_response; json_id := None |}))
    as [_ H].
  destruct H as (st' & Hs & Hr & _);
    [discriminate | exact signed_in_valid | reflexivity | reflexivity | discriminate |].
  exists st'. split; [exact Hs | exact Hr].
Defined.

Lemma savePlaylist_stops_early_witness :
  let down := λ (_ : list Request) (_ : Request),
                {| arrival := 1000100; outcome := Response 500 None |} in
  Auth.savePlaylist sample_Number sample_encode down 1 "" ["spotify:track:1"]
    signed_in_state = (Some (Resolved None), signed_in_state)
  ∧ ∃ st', Auth.savePlaylist sample_Number sample_encode down 1 "Mix" ["spotify:track:1"]
             signed_in_state = (Some (Failed (ApiError 500)), st')
           ∧ requests (browser st') = [api_request "/me" None None "BQD"].
Proof.
  intros down.
  destruct (savePlaylist_stops_early sample_Number sample_encode down 0
              "" ["spotify:track:1"] signed_in_state "BQD" (ApiError 500)) as [Hguard _].
  destruct (savePlaylist_stops_early sample_Number sample_encode down 0
              "Mix" ["spotify:track:1"] signed_in_state "BQD" (ApiError 500)) as [_ Hfail].
  split; [apply Hguard; left; reflexivity |].
  destruct Hfail as (st' & Hs & Hr);
    [discriminate | discriminate | exact signed_in_valid | discriminate | reflexivity |].
  exists st'. split; [exact Hs | exact Hr].
Defined.

Lemma savePlaylist_three_requests_witness :
  ∃ st', Auth.savePlaylist sample_Number sample_encode playlist_network 1
           "Mix" ["spotify:track:1"] signed_in_state
         = (Some (Resolved (Some (json_with_id "snap"))), st')
         ∧ requests (browser st')
           = [api_request "/me" None None "BQD";
              api_request "/users/me/playlists" (Some "POST")
                (Some (PlaylistName "Mix")) "BQD";
              api_request "/playlists/pl/tracks" (Some "POST")
                (Some (TrackUris ["spotify:track:1"])) "BQD"].
Proof.
  destruct (savePlaylist_three_requests sample_Number sample_encode playlist_network 0
              "Mix" ["spotify:track:1"] signed_in_state "BQD" 4540000 200 201 201
              {| search_view := {| Api.tracks := None |}; json_id := Some "me" |}
              {| search_view := {| Api.tracks := None |}; json_id := Some "pl" |}
              (json_with_id "snap"))
    as (st' & Hs & Hr & _);
    [discriminate | discriminate | exact signed_in_valid | reflexivity
     | reflexivity | reflexivity | reflexivity
     | reflexivity | discriminate | reflexivity | discriminate
     | reflexivity | discriminate | reflexivity | reflexivity |].
  exists st'. split; [exact Hs | exact Hr].
Defined.

Lemma savePlaylist_token_expires_midway_witness :
  ∃ st', Auth.savePlaylist sample_Number sample_encode slow_network 1
           "Mix" ["spotify:track:1"] signed_in_state
         = (Some (Failed NoAccessToken), st')
         ∧ requests (browser st') = [api_request "/me" None None "BQD"]
         ∧ assigned (browser st') = Some (authorizeUrl sample_encode).
Proof.
  destruct (savePlaylist_token_expires_midway sample_Number sample_encode slow_network
              0 "Mix" ["spotify:track:1"] signed_in_state "BQD" 4540000 200
              {| search_view := {| Api.tracks := None |}; json_id := Some "me" |})
    as (st' & Hs & Hr & _ & _ & Ha);
    [discriminate | discriminate | exact signed_in_valid | reflexivity
     | eexists; split; [reflexivity | split; reflexivity]
     | reflexivity | reflexivity | reflexivity | reflexivity | discriminate
     | vm_compute; discriminate |].
  exists st'. auto.
Defined.

End RequestExamples.

(** * The client of src/util/Spotify.js *)

Section SpotifyJsClient.

Import Auth.

Variable Number : string → jsnum.
Variable encodeURIComponent : string → string.
Variable network : list Request → Request → Reply.

Local Abbreviation getAccessToken := (SpotifyJs.getAccessToken Number encodeURIComponent).
Local Abbreviation search := (SpotifyJs.search Number encodeURIComponent network).
Local Abbreviation search_request := (SpotifyJs.search_request encodeURIComponent).
Local Abbreviation savePlaylist :=
  (SpotifyJs.savePlaylist Number encodeURIComponent network).

Lemma spotifyjs_getAccessToken_unexpired (tok : string) (st : State) :
  unexpired_token tok st → getAccessToken st = (Some tok, st).
Proof.
  intros (Hm & _ & Hu). unfold SpotifyJs.getAccessToken. rewrite Hu, Hm. reflexivity.
Qed.

Lemma spotifyjs_search_S (k : nat) (term : string) (st : State) (tok : string) :
  unexpired_token tok st →
  search (S k) term st =
  let rq := search_request term tok in
  let rp := network (requests (browser st)) rq in
  let st1 := sent rq (arrival rp) st in
  match outcome rp with
  | NetworkFailure => (Some [], st1)
  | Response status json =>
      if negb (ok status) then
        if bool_decide (status = 401) then
          match search k term (SpotifyJs.forget_token st1) with
          | (Some _, st2) => (Some [], st2)
          | (None, st2) => (None, st2)
          end
        else (Some [], st1)
      else
        match json with
        | Some (JObj o) =>
            match Spotify.search (search_view o) with
            | Fulfilled ts => (Some ts, st1)
            | Rejected => (Some [], st1)
            end
        | Some JNull => (Some [], st1)
        | None => (Some [], st1)
        end
  end.
Proof.
  intros Hv. simpl. rewrite (spotifyjs_getAccessToken_unexpired tok st Hv).
  rewrite (truthy_Some tok (proj1 (proj2 Hv))). reflexivity.
Qed.

(** X20: The [search] of Spotify.js turns every failure into an empty result:
    with an unexpired token and any answer but a 401, it resolves after
    its one request, and it resolves to a non-empty list only when the
    answer was successful and the callback found tracks in its body. *)
Theorem spotifyjs_search_swallows_failures (k : nat) (term : string) (st : State)
        (tok : string) :
  unexpired_token tok st →
  let rq := search_request term tok in
  let rp := network (requests (browser st)) rq in
  (∀ json, outcome rp ≠ Response 401 json) →
  ∃ ts, search (S k) term st = (Some ts, sent rq (arrival rp) st)
        ∧ (ts ≠ [] →
           ∃ status o, outcome rp = Response status (Some (JObj o))
                       ∧ ok status = true
                       ∧ Spotify.search (search_view o) = Fulfilled ts).
Proof.
  intros Hv rq rp Hne. rewrite (spotifyjs_search_S k term st tok Hv).
  cbv zeta. fold rq rp.
  destruct (outcome rp) as [| status json] eqn:Ho.
  { exists []. split; [reflexivity | congruence]. }
  destruct (ok status) eqn:Hok; simpl.
  - destruct json as [[| o] |].
    + exists []. split; [reflexivity | congruence].
    + destruct (Spotify.search (search_view o)) as [ts |] eqn:Hs.
      * exists ts. split; [reflexivity |]. intros _. exists status, o. auto.
      * exists []. split; [reflexivity | congruence].
    + exists []. split; [reflexivity | congruence].
  - destruct (bool_decide_reflect (status = 401)) as [-> | _].
    + exfalso. exact (Hne json eq_refl).
    + exists []. split; [reflexivity | congruence].
Qed.

Lemma spotifyjs_search_unfold (k : nat) (term : string) (st : State) :
  search (S k) term st =
  let (token, st) := getAccessToken st in
  match token with
  | Some tk =>
      if truthy token then
        let rq := search_request term tk in
        let rp := network (requests (browser st)) rq in
        let st := sent rq (arrival rp) st in
        match outcome rp with
        | NetworkFailure => (Some [], st)
        | Response status json =>
            if negb (ok status) then
              if bool_decide (status = 401) then
                match search k term (SpotifyJs.forget_token st) with
                | (Some _, st) => (Some [], st)
                | (None, st) => (None, st)
                end
              else (Some [], st)
            else
              match json with
              | Some (JObj o) =>
                  match Spotify.search (search_view o) with
                  | Fulfilled ts => (Some ts, st)
                  | Rejected => (Some [], st)
                  end
              | Some JNull => (Some [], st)
              | None => (Some [], st)
              end
        end
      else (Some [], st)
  | None => (Some [], st)
  end.
Proof. reflexivity. Qed.

(** A call that resolved keeps its result when given more fuel. *)
Lemma spotifyjs_search_more_fuel (k : nat) (term : string) (st st' : State)
      (ts : list Track.t) :
  search k term st = (Some ts, st') → search (S k) term st = (Some ts, st').
Proof.
  revert st st' ts. induction k as [| k IH]; intros st st' ts H; [discriminate |].
  rewrite spotifyjs_search_unfold in H. rewrite spotifyjs_search_unfold.
  destruct (getAccessToken st) as [[tk |] st0]; [| exact H].
  destruct (truthy (Some tk)); [| exact H].
  cbv zeta in *.
  destruct (outcome _) as [| status json]; [exact H |].
  destruct (negb (ok status)); [| exact H].
  destruct (bool_decide (status = 401)); [| exact H].
  destruct (search k term _) as [[r |] st2] eqn:Hs; [| discriminate].
  rewrite (IH _ _ _ Hs). exact H.
Qed.

Lemma spotifyjs_search_fuel_le (k n : nat) (term : string) (st st' : State)
      (ts : list Track.t) :
  search k term st = (Some ts, st') → search (n + k) term st = (Some ts, st').
Proof.
  intros H. induction n as [| n IH]; [exact H |].
  apply spotifyjs_search_more_fuel. exact IH.
Qed.

(** Without a token in memory, and with a page origin that does not
    itself read as a token parameter, [search] resolves after at most
    one request and one repeated call. *)
Lemma spotifyjs_search_forgotten (term : string) (st : State) :
  accessToken (memory st) = None →
  match_param "access_token=" (origin (browser st) +:+ "/") = None →
  ∃ ts st', search 2 term st = (Some ts, st').
Proof.
  intros Hm Ho.
  assert (Hlast : ∀ x, accessToken (memory x) = None →
                       href (browser x) = origin (browser st) +:+ "/" →
                       ∃ ts x', search 1 term x = (Some ts, x')).
  { intros x Hx Hh. rewrite spotifyjs_search_unfold.
    unfold SpotifyJs.getAccessToken, SpotifyJs.unexpired.
    rewrite Hx. cbn [truthy andb]. cbv zeta. rewrite Hh, Ho. eauto. }
  rewrite spotifyjs_search_unfold.
  unfold SpotifyJs.getAccessToken, SpotifyJs.unexpired.
  rewrite Hm. cbn [truthy andb]. cbv zeta.
  destruct (match_param "access_token=" (href (browser st))) as [tk |]; [| eauto].
  destruct (match_param "expires_in=" (href (browser st))) as [ex |]; [| eauto].
  destruct (truthy (Some tk)); [| eauto].
  destruct (outcome _) as [| status json]; [eauto |].
  destruct (negb (ok status)).
  - destruct (bool_decide (status = 401)); [| eauto].
    match goal with
    | |- context [search 1 term ?x] =>
        destruct (Hlast x eq_refl eq_refl) as (ts & x' & ->)
    end.
    eauto.
  - destruct json as [[| o] |]; eauto.
    destruct (Spotify.search (search_view o)); eauto.
Qed.

(** X21: After a 401 the [search] of Spotify.js never delivers tracks: the
    token is forgotten and [search] is called again, but what the
    repeated call resolves to is dropped, so the call resolves, and to
    the empty list.  When the page URL carries no token, the repeated
    call finds none, redirects to the authorization page, and only the
    one request was sent. *)
Theorem spotifyjs_search_after_401 (term : string) (st : State)
        (tok : string) (json : option Json) :
  unexpired_token tok st →
  match_param "access_token=" (origin (browser st) +:+ "/") = None →
  let rq := search_request term tok in
  outcome (network (requests (browser st)) rq) = Response 401 json →
  (∃ st', ∀ n, search (n + 3) term st = (Some [], st'))
  ∧ (match_param "access_token=" (href (browser st)) = None →
     ∃ st', (∀ n, search (n + 2) term st = (Some [], st'))
            ∧ requests (browser st') = requests (browser st) ++ [rq]
            ∧ accessToken (memory st') = None
            ∧ assigned (browser st')
              = Some (SpotifyJs.authorizeUrl encodeURIComponent)).
Proof.
  intros Hv Horigin rq Ho.
  set (st1 := sent rq (arrival (network (requests (browser st)) rq)) st).
  assert (Hstep : ∀ n, search (S n) term st =
            match search n term (SpotifyJs.forget_token st1) with
            | (Some _, st2) => (Some [], st2)
            | (None, st2) => (None, st2)
            end).
  { intros n. rewrite (spotifyjs_search_S n term st tok Hv). cbv zeta. fold rq.
    rewrite Ho. reflexivity. }
  split.
  - destruct (spotifyjs_search_forgotten term (SpotifyJs.forget_token st1) eq_refl Horigin)
      as (ts & st' & Hs).
    exists st'. intros n. replace (n + 3)%nat with (S (n + 2)) by lia.
    rewrite Hstep, (spotifyjs_search_fuel_le 2 n term _ st' ts Hs). reflexivity.
  - intros Hurl.
    assert (Hget : getAccessToken (SpotifyJs.forget_token st1)
                   = (None, set_assigned (SpotifyJs.authorizeUrl encodeURIComponent)
                              (SpotifyJs.forget_token st1))).
    { unfold SpotifyJs.getAccessToken.
      change (SpotifyJs.unexpired (SpotifyJs.forget_token st1)) with false.
      change (href (browser (SpotifyJs.forget_token st1))) with (href (browser st)).
      rewrite Hurl. reflexivity. }
    assert (Hs : search 1 term (SpotifyJs.forget_token st1)
                 = (Some [], set_assigned (SpotifyJs.authorizeUrl encodeURIComponent)
                               (SpotifyJs.forget_token st1))).
    { rewrite spotifyjs_search_unfold, Hget. reflexivity. }
    exists (set_assigned (SpotifyJs.authorizeUrl encodeURIComponent)
              (SpotifyJs.forget_token st1)).
    split; [| repeat split].
    intros n. replace (n + 2)%nat with (S (n + 1)) by lia.
    rewrite Hstep, (spotifyjs_search_fuel_le 1 n term _ _ _ Hs). reflexivity.
Qed.

(** X22: The [savePlaylist] of Spotify.js rejects without a request when the
    name or the list is empty.  Otherwise it takes the token once: with
    an unexpired token at the start and three successful answers it
    sends GET /me, POST of the new public playlist for the returned
    user, and POST of the track URIs for the returned playlist, all with
    that token, however late the answers arrive. *)
Theorem spotifyjs_savePlaylist_uses_one_token (name : string) (uris : list string)
        (st : State) (tok : string) (s1 s2 s3 : Z)
        (user playlist : JsonObject) (j3 : Json) :
  (name = "" ∨ uris = [] → savePlaylist name uris st = (Failed MissingInput, st))
  ∧ (name ≠ "" → uris ≠ [] → unexpired_token tok st →
     let past := requests (browser st) in
     let rq1 := SpotifyJs.request "/me" "GET" tok None in
     let rq2 := SpotifyJs.request
                  ("/users/" +:+ default "undefined" (json_id user) +:+ "/playlists")
                  "POST" tok (Some (NewPlaylist name "Created with Jammming" true)) in
     let rq3 := SpotifyJs.request
                  ("/playlists/" +:+ default "undefined" (json_id playlist) +:+ "/tracks")
                  "POST" tok (Some (TrackUris uris)) in
     outcome (network past rq1) = Response s1 (Some (JObj user)) →
     outcome (network (past ++ [rq1]) rq2) = Response s2 (Some (JObj playlist)) →
     outcome (network (past ++ [rq1; rq2]) rq3) = Response s3 (Some j3) →
     ok s1 = true → ok s2 = true → ok s3 = true →
     ∃ st', savePlaylist name uris st = (Resolved j3, st')
            ∧ requests (browser st') = past ++ [rq1; rq2; rq3]
            ∧ memory st' = memory st
            ∧ assigned (browser st') = assigned (browser st)).
Proof.
  split.
  - intros [-> | ->]; unfold SpotifyJs.savePlaylist.
    + reflexivity.
    + rewrite orb_true_r. reflexivity.
  - intros Hname Huris Hv past rq1 rq2 rq3 Ho1 Ho2 Ho3 Hok1 Hok2 Hok3.
    unfold SpotifyJs.savePlaylist.
    rewrite (bool_decide_eq_false_2 (name = "")) by assumption.
    rewrite (bool_decide_eq_false_2 (uris = [])) by assumption.
    cbn [orb].
    rewrite (spotifyjs_getAccessToken_unexpired tok st Hv).
    rewrite (truthy_Some tok (proj1 (proj2 Hv))).
    unfold SpotifyJs.step at 1. cbv zeta. fold past rq1.
    rewrite Ho1, Hok1. cbn [negb id_of].
    unfold SpotifyJs.step at 1. cbv zeta.
    change (requests (browser (sent rq1 (arrival (network past rq1)) st)))
      with (past ++ [rq1]).
    fold rq2. rewrite Ho2, Hok2. cbn [negb id_of].
    unfold SpotifyJs.step. cbv zeta.
    set (st1 := sent rq1 (arrival (network past rq1)) st).
    set (st2 := sent rq2 (arrival (network (past ++ [rq1]) rq2)) st1).
    assert (Hr2 : requests (browser st2) = past ++ [rq1; rq2]).
    { simpl. rewrite <- app_assoc. reflexivity. }
    fold rq3. rewrite Hr2, Ho3, Hok3. cbn [negb].
    eexists. split; [reflexivity |]. split; [| repeat split].
    simpl. rewrite <- !app_assoc. reflexivity.
Qed.

End SpotifyJsClient.

Section SpotifyJsExamples.

Import Auth.

Lemma signed_in_unexpired : unexpired_token "BQD" signed_in_state.
Proof. split; [reflexivity |]. split; [discriminate | reflexivity]. Qed.

Lemma spotifyjs_search_swallows_failures_witness :
  let down := λ (_ : list Request) (_ : Request),
                {| arrival := 1000100; outcome := Response 500 None |} in
  ∃ st', SpotifyJs.search sample_Number sample_encode down 1 "abba" signed_in_state
         = (Some [], st')
         ∧ requests (browser st') = [SpotifyJs.search_request sample_encode "abba" "BQD"].
Proof.
  intros down.
  destruct (spotifyjs_search_swallows_failures sample_Number sample_encode down 0
              "abba" signed_in_state "BQD" signed_in_unexpired)
    as (ts & Hs & Hne); [discriminate |].
  destruct ts as [| t ts].
  - eexists. split; [exact Hs | reflexivity].
  - exfalso. destruct (Hne ltac:(discriminate)) as (status & o & Ho & _). discriminate.
Defined.

Lemma spotifyjs_search_after_401_witness :
  ∃ st', SpotifyJs.search sample_Number sample_encode always_401 3 "abba" signed_in_state
         = (Some [], st')
         ∧ SpotifyJs.search sample_Number sample_encode always_401 2 "abba" signed_in_state
           = (Some [], st')
         ∧ assigned (browser st') = Some (SpotifyJs.authorizeUrl sample_encode).
Proof.
  destruct (spotifyjs_search_after_401 sample_Number sample_encode always_401
              "abba" signed_in_state "BQD" None signed_in_unexpired eq_refl eq_refl)
    as [_ H].
  destruct (H eq_refl) as (st' & Hs & _ & _ & Ha).
  exists st'. split; [exact (Hs 1%nat) |]. split; [exact (Hs 0%nat) | exact Ha].
Defined.

Lemma spotifyjs_savePlaylist_uses_one_token_witness :
  ∃ st', SpotifyJs.savePlaylist sample_Number sample_encode playlist_network
           "Mix" ["spotify:track:1"] signed_in_state
         = (Resolved (json_with_id "snap"), st')
         ∧ Forall (λ rq, bearer rq = "BQD") (requests (browser st'))
         ∧ length (requests (browser st')) = 3%nat.
Proof.
  destruct (spotifyjs_savePlaylist_uses_one_token sample_Number sample_encode
              playlist_network "Mix" ["spotify:track:1"] signed_in_state "BQD"
              200 201 201
              {| search_view := {| Api.tracks := None |}; json_id := Some "me" |}
              {| search_view := {| Api.tracks := None |}; json_id := Some "pl" |}
              (json_with_id "snap")) as [_ H].
  destruct H as (st' & Hs & Hr & _);
    [discriminate | discriminate | exact signed_in_unexpired
     | reflexivity | reflexivity | reflexivity
     | reflexivity | reflexivity | reflexivity |].
  exists st'. split; [exact Hs |]. rewrite Hr.
  split; [repeat constructor | reflexivity].
Defined.

End SpotifyJsExamples.
